(** * numba/abstracttypes.py: the type-interning registry

    A shallow embedding of [numba/abstracttypes.py]: the interning
    metaclass [_TypeMetaclass], the weak registry [_typecache], the code
    counter [_typecodes], the key-based equality of [Type], and the
    user-facing helpers [Type.__call__] and [Type.__getitem__].

    Python objects live in a heap indexed by object identity; the module
    globals are fields of an explicit state, threaded through a small
    state-and-exception monad. *)

From stdpp Require Import base option list gmap strings.

Set Warnings "-register-all".
Local Open Scope N_scope.

(** ** Python values seen by the user-facing helpers *)

(** Object identity ([id(x)], what [is] compares).  Identities are handed
    out in allocation order and never handed out twice. *)
Abbreviation oid := nat (only parsing).

(** A weak reference is identified by its referent: [__call__] creates
    exactly one [weakref.ref] per instance it builds. *)
Abbreviation wref := nat (only parsing).

Inductive exn :=
  | TypeError
  | AssertionError
  | AttributeError
  | IndexError
  | NotImplementedError
  | ReferenceError.

Inductive pyobj :=
  | PyNone
  | PyInt (z : Z)
  | PySlice (start stop step : pyobj)
  | PyTuple (items : list pyobj)
  | PyList (items : list pyobj)
  | PyType (t : oid)
  | PyObject (step_attr : option pyobj).  (* any other object, with its
                                             [step] attribute if it has one *)

(** The layout tags ['C'], ['F'] and ['A']. *)
Inductive layout := LayoutC | LayoutF | LayoutA.

Global Instance exn_eq_dec : EqDecision exn.
Proof. solve_decision. Defined.

Global Instance layout_eq_dec : EqDecision layout.
Proof. solve_decision. Defined.

(** [x.step]: slice objects carry the attribute, and so may other
    objects ([range], user classes); integers, [None], sequences and
    descriptors do not. *)
Definition getattr_step (x : pyobj) : exn + pyobj :=
  match x with
  | PySlice _ _ step => inr step
  | PyObject (Some step) => inr step
  | _ => inl AttributeError
  end.

(** [x == 1] for the values above. *)
Definition eq_one (x : pyobj) : bool :=
  match x with
  | PyInt 1 => true
  | _ => false
  end.

(** [seq[0]] and [seq[-1]]. *)
Definition getitem_first (items : list pyobj) : exn + pyobj :=
  match items with
  | [] => inl IndexError
  | x :: _ => inr x
  end.

Definition getitem_last (items : list pyobj) : exn + pyobj :=
  match last items with
  | None => inl IndexError
  | Some x => inr x
  end.

(** The branch taken on a tuple or a list (lines 130-136). *)
Definition sequence_array_spec (items : list pyobj) : exn + (nat * layout) :=
  let ndim := length items in
  match getitem_first items with
  | inl e => inl e
  | inr first =>
    match getattr_step first with
    | inl e => inl e
    | inr step0 =>
      if eq_one step0 then inr (ndim, LayoutF)
      else
        match getitem_last items with
        | inl e => inl e
        | inr final =>
          match getattr_step final with
          | inl e => inl e
          | inr step1 =>
            if eq_one step1 then inr (ndim, LayoutC) else inr (ndim, LayoutA)
          end
        end
    end
  end.

(** [Type._determine_array_spec] (does not read [self]). *)
Definition _determine_array_spec (args : pyobj) : exn + (nat * layout) :=
  match args with
  | PyTuple items | PyList items => sequence_array_spec items
  | PySlice _ _ step =>
    if eq_one step then inr (1%nat, LayoutC) else inr (1%nat, LayoutA)
  | _ => inr (1%nat, LayoutA)
  end.

(** [isinstance(x, Type)] and [isinstance(x, slice)]. *)
Definition isinstance_Type (x : pyobj) : bool :=
  match x with PyType _ => true | _ => false end.

Definition isinstance_slice (x : pyobj) : bool :=
  match x with PySlice _ _ _ => true | _ => false end.

(** A slice object whose [step] is 1. *)
Definition slice_step_one (x : pyobj) : bool :=
  match x with
  | PySlice _ _ step => eq_one step
  | _ => false
  end.

(** The reading of the indexing rule under which lists count as
    "any other index shape" and every tuple of slices, the empty one
    included, has the rank and layout described. *)
Definition stated_array_spec (idx : pyobj) : nat * layout :=
  match idx with
  | PySlice _ _ step => (1%nat, if eq_one step then LayoutC else LayoutA)
  | PyTuple items =>
    if forallb isinstance_slice items then
      (length items,
       if from_option slice_step_one false (head items) then LayoutF
       else if from_option slice_step_one false (last items) then LayoutC
       else LayoutA)
    else (1%nat, LayoutA)
  | _ => (1%nat, LayoutA)
  end.

(** The indexing rule as the code has it, on the inputs it is meant
    for: one slice, a non-empty tuple or list of slices, or an index
    that is neither a slice nor a sequence. *)
Definition array_spec_rule (idx : pyobj) : option (nat * layout) :=
  match idx with
  | PySlice _ _ step => Some (1%nat, if eq_one step then LayoutC else LayoutA)
  | PyTuple items | PyList items =>
    match items with
    | [] => None
    | _ :: _ =>
      if forallb isinstance_slice items then
        Some (length items,
              if from_option slice_step_one false (head items) then LayoutF
              else if from_option slice_step_one false (last items) then LayoutC
              else LayoutA)
      else None
    end
  | _ => Some (1%nat, LayoutA)
  end.

(** An index with the [start] and [stop] of its slices forgotten. *)
Definition strip_slice (x : pyobj) : pyobj :=
  match x with
  | PySlice _ _ step => PySlice PyNone PyNone step
  | _ => x
  end.

Definition strip_bounds (idx : pyobj) : pyobj :=
  match idx with
  | PyTuple items => PyTuple (map strip_slice items)
  | PyList items => PyList (map strip_slice items)
  | _ => strip_slice idx
  end.

(** [isinstance(x, (tuple, list))], with the elements. *)
Definition sequence_items (x : pyobj) : option (list pyobj) :=
  match x with
  | PyTuple items | PyList items => Some items
  | _ => None
  end.

(** Modelled from the spec: [signature] of [numba.typing] is not part of
    this file; the spec describes its result as a call signature holding
    a return type and the parameter types in order. *)
Record Signature := mkSignature {
  return_type : pyobj;
  sig_args : list pyobj;
}.

Definition signature (ret_ty : pyobj) (params : list pyobj) : Signature :=
  mkSignature ret_ty params.

(** ** Instances, module globals and the interpreter state *)

(** The concrete variants are defined by other modules; this file only
    sees them through the following data.  Everything below holds for
    every choice of it. *)
Class TypeUniverse := {
  (** Class objects, compared with [is]. *)
  cls : Type;
  cls_eq_dec :: EqDecision cls;
  (** What a constructor is called with ([*args, **kwargs]). *)
  args : Type;
  (** Hashable values used as keys, compared with [==]. *)
  pykey : Type;
  pykey_eq_dec :: EqDecision pykey;
  (** The builtin [hash], and a [str] seen as a key. *)
  hash : pykey -> Z;
  str_key : string -> pykey;
  (** [cls.__abstractmethods__], maintained by [ABCMeta]. *)
  abstractmethods : cls -> list string;
  (** [issubclass(cls, IteratorType)]. *)
  subclass_IteratorType : cls -> bool;
  (** How a subclass of [IteratorType] is written: whether its
      [__init__] goes through [IteratorType.__init__], and the
      [iterator_type] property it defines in place of the inherited
      one, if any, as a function of the instance and its attributes. *)
  runs_IteratorType_init : cls -> bool;
  iterator_type_override : cls -> option (oid -> args -> oid);
  (** The descriptors an instance built from these arguments keeps in
      its attributes. *)
  referents : cls -> args -> list oid;
  (** The [name] and [param] a variant's [__init__] hands to
      [Type.__init__]. *)
  init_name : cls -> args -> string;
  init_param : cls -> args -> bool;
  (** The [key] property of a variant that overrides it, computed from
      the attributes its [__init__] stored. *)
  key_override : cls -> option (args -> pykey);
  (** The [cast_python_value] of a variant that overrides it. *)
  cast_override : cls -> option (pyobj -> exn + pyobj);
  (** [Array] of [numba.types], and the arguments
      [dtype=..., ndim=..., layout=...] of its constructor. *)
  Array : cls;
  Array_args : oid -> nat -> layout -> args;
  (** An [Array] keeps its [dtype]. *)
  Array_referents : forall self ndim lay,
    referents Array (Array_args self ndim lay) = [self];
}.

Section abstracttypes.

Context {U : TypeUniverse}.

(** An instance of [Type] with its attributes. *)
Record obj := mkObj {
  ob_cls : cls;                    (* __class__ *)
  ob_fields : args;                (* attributes kept by the variant *)
  name : string;
  is_parametric : bool;
  _code : option N;                (* unset until the instance is interned *)
  _iterator_type : option oid;     (* set by IteratorType.__init__ only *)
}.

Record state := mkState {
  heap : gmap nat obj;             (* the instances that are alive *)
  next_id : oid;                   (* identity of the next allocation *)
  _typecodes : N;                  (* itertools.count(): its next value *)
  _typecache : list (wref * wref); (* dict: weakref -> weakref *)
  owners : list oid;               (* strong references held by the
                                      program around the registry, one
                                      entry each; those held in attributes
                                      of instances are read off the heap,
                                      see [referenced] *)
}.

Definition set_heap (f : gmap nat obj -> gmap nat obj) (s : state) : state :=
  mkState (f (heap s)) (next_id s) (_typecodes s) (_typecache s) (owners s).
Definition set_next_id (n : oid) (s : state) : state :=
  mkState (heap s) n (_typecodes s) (_typecache s) (owners s).
Definition set_typecodes (n : N) (s : state) : state :=
  mkState (heap s) (next_id s) n (_typecache s) (owners s).
Definition set_typecache (d : list (wref * wref)) (s : state) : state :=
  mkState (heap s) (next_id s) (_typecodes s) d (owners s).
Definition set_owners (l : list oid) (s : state) : state :=
  mkState (heap s) (next_id s) (_typecodes s) (_typecache s) l.

(** At import time: no instance, [itertools.count()] at 0, [{}]. *)
Definition init_state : state := mkState ∅ 0%nat 0 [] [].

(** ** A state and exception monad *)

Inductive outcome (A : Type) :=
  | Return (a : A) (s : state)
  | Raise (e : exn) (s : state).
Arguments Return {A} a s.
Arguments Raise {A} e s.

Definition M (A : Type) := state -> outcome A.

Definition ret {A} (a : A) : M A := fun s => Return a s.
Definition raise {A} (e : exn) : M A := fun s => Raise e s.
Definition bind {A B} (m : M A) (k : A -> M B) : M B :=
  fun s => match m s with
           | Return a s' => k a s'
           | Raise e s' => Raise e s'
           end.
Definition gets {A} (f : state -> A) : M A := fun s => Return (f s) s.
Definition modify (f : state -> state) : M unit := fun s => Return tt (f s).

Notation "'let!' x ':=' m 'in' k" := (bind m (fun x => k))
  (at level 10, x name, m at level 100, k at level 200).
Notation "m ';;' k" := (bind m (fun _ => k))
  (at level 100, k at level 200, right associativity).

Definition final_state {A} (r : outcome A) : state :=
  match r with Return _ s => s | Raise _ s => s end.

(** ** The key-equality protocol (lines 79-97) *)

(** The [key] property: [self.name] unless the variant overrides it. *)
Definition key (self : obj) : pykey :=
  match key_override (ob_cls self) with
  | Some f => f (ob_fields self)
  | None => str_key (name self)
  end.

Definition Type_hash (self : obj) : Z := hash (key self).

Definition Type_eq (self other : obj) : bool :=
  bool_decide (ob_cls self = ob_cls other) && bool_decide (key self = key other).

Definition Type_ne (self other : obj) : bool := negb (Type_eq self other).

(** [Type.__repr__] (lines 87-88). *)
Definition Type_repr (self : obj) : string := name self.

(** ** Weak references and the registry dict *)

Definition weakref_ref (inst : oid) : wref := inst.

(** [wr()]: the referent, or [None] once it is gone. *)
Definition weakref_deref (wr : wref) : M (option oid) :=
  gets (fun s => match heap s !! wr with Some _ => Some wr | None => None end).

(** [wr1 == wr2]: the referents are compared while both are alive, the
    weak references themselves (by identity) otherwise.  The hash of a
    weak reference is the hash of its referent, so that equal entries
    always meet in the same dict bucket. *)
Definition weakref_eq (h : gmap nat obj) (wr1 wr2 : wref) : bool :=
  match h !! wr1, h !! wr2 with
  | Some a, Some b => Type_eq a b
  | _, _ => bool_decide (wr1 = wr2)
  end.

Fixpoint dict_get (h : gmap nat obj) (d : list (wref * wref)) (k : wref)
  : option wref :=
  match d with
  | [] => None
  | (k', v) :: d' => if weakref_eq h k' k then Some v else dict_get h d' k
  end.

(** [d[k] = v]: an entry with an equal key keeps its key object. *)
Fixpoint dict_set (h : gmap nat obj) (d : list (wref * wref)) (k v : wref)
  : list (wref * wref) :=
  match d with
  | [] => [(k, v)]
  | (k', v') :: d' =>
    if weakref_eq h k' k then (k', v) :: d' else (k', v') :: dict_set h d' k v
  end.

(** [d.pop(k, None)], result dropped. *)
Fixpoint dict_pop (h : gmap nat obj) (d : list (wref * wref)) (k : wref)
  : list (wref * wref) :=
  match d with
  | [] => []
  | (k', v') :: d' =>
    if weakref_eq h k' k then d' else (k', v') :: dict_pop h d' k
  end.

(** ** Module-level functions (lines 15-26) *)

Definition _autoincr : M N :=
  let! n := gets _typecodes in
  modify (set_typecodes (n + 1));;          (* n = next(_typecodes) *)
  if n <? 2 ^ 32 then ret n else raise AssertionError.

Definition _on_type_disposal (wr : wref) : M unit :=
  modify (fun s => set_typecache (dict_pop (heap s) (_typecache s) wr) s).

(** ** Constructors *)

(** [Type.__init__] and [IteratorType.__init__]. *)
Definition Type_init (self : obj) (nm : string) (param : bool) : obj :=
  mkObj (ob_cls self) (ob_fields self) nm param (_code self) (_iterator_type self).

Definition IteratorType_init (self_id : oid) (self : obj) (nm : string)
  (param : bool) : obj :=
  let self :=
    mkObj (ob_cls self) (ob_fields self) (name self) (is_parametric self)
          (_code self) (Some self_id) in
  Type_init self nm param.

(** The instance [type.__call__] builds: a new object on which the
    [__init__] of the class has run, through [IteratorType.__init__]
    for a subclass of [IteratorType] that calls it and through
    [Type.__init__] alone otherwise. *)
Definition new_obj (c : cls) (a : args) (inst : oid) : obj :=
  let blank := mkObj c a EmptyString false None None in
  if subclass_IteratorType c && runs_IteratorType_init c
  then IteratorType_init inst blank (init_name c a) (init_param c a)
  else Type_init blank (init_name c a) (init_param c a).

(** The key of an instance of [c] built from the arguments [a]. *)
Definition init_key (c : cls) (a : args) : pykey :=
  key (new_obj c a 0%nat).

(** [type.__call__(cls, *args, **kwargs)]: refuse a class with abstract
    methods left, else allocate the instance. *)
Definition type_call (c : cls) (a : args) : M oid :=
  match abstractmethods c with
  | _ :: _ => raise TypeError
  | [] =>
    let! inst := gets next_id in
    modify (set_next_id (S inst));;
    modify (set_heap (insert inst (new_obj c a inst)));;
    ret inst
  end.

(** [Type.post_init]: does nothing.  (Variants whose [__init__] or
    [post_init] build further descriptors are outside this file.) *)
Definition post_init (self : oid) : M unit := ret tt.

(** [inst._code = n]. *)
Definition with_code (n : N) (o : obj) : obj :=
  mkObj (ob_cls o) (ob_fields o) (name o) (is_parametric o) (Some n)
        (_iterator_type o).

Definition set_code (inst : oid) (n : N) : M unit :=
  modify (set_heap (alter (with_code n) inst)).

(** [_TypeMetaclass.__call__] (lines 37-54). *)
Definition TypeMetaclass_call (c : cls) (a : args) : M oid :=
  let! inst := type_call c a in
  let wr := weakref_ref inst in
  let! orig := gets (fun s => dict_get (heap s) (_typecache s) wr) in
  let! orig := match orig with              (* orig and orig() *)
               | None => ret None
               | Some w => weakref_deref w
               end in
  match orig with
  | Some orig => ret orig
  | None =>
    let! n := _autoincr in
    set_code inst n;;
    modify (fun s => set_typecache (dict_set (heap s) (_typecache s) wr wr) s);;
    post_init inst;;
    ret inst
  end.

(** ** The user-facing helpers (lines 111-150) *)

(** Read the attributes of an instance through a reference to it.  A
    caller that invokes a method holds the instance, so the second
    branch is not taken on references the program really has. *)
Definition get_obj (self : oid) : M obj :=
  fun s => match heap s !! self with
           | Some ob => Return ob s
           | None => Raise ReferenceError s
           end.

(** [self.cast_python_value(x)]: [Type.cast_python_value] raises, a
    variant may override it. *)
Definition cast_python_value (self : oid) (x : pyobj) : M pyobj :=
  let! ob := get_obj self in
  match cast_override (ob_cls ob) with
  | None => raise NotImplementedError
  | Some f => match f x with inl e => raise e | inr v => ret v end
  end.

(** [Type.__call__(self, *args)]. *)
Definition Type_call (self : oid) (xs : list pyobj) : M (pyobj + Signature) :=
  match xs with
  | [x] =>                                   (* len(args) == 1 *)
    if negb (isinstance_Type x)
    then let! v := cast_python_value self x in ret (inl v)
    else ret (inr (signature (PyType self) xs))
  | _ => ret (inr (signature (PyType self) xs))
  end.

(** [Type.__getitem__(self, args)]. *)
Definition Type_getitem (self : oid) (idx : pyobj) : M oid :=
  match _determine_array_spec idx with
  | inl e => raise e
  | inr (ndim, lay) => TypeMetaclass_call Array (Array_args self ndim lay)
  end.

(** [self.iterator_type]: the property of [IteratorType] (lines
    221-223), unless the class of [self] defines its own. *)
Definition iterator_type (self : oid) : M oid :=
  let! ob := get_obj self in
  match iterator_type_override (ob_cls ob) with
  | Some f => ret (f self (ob_fields ob))
  | None =>
    match _iterator_type ob with
    | Some t => ret t
    | None => raise AttributeError
    end
  end.

(** ** Ownership and reclamation *)

(** The code an instance carries in a state, if any. *)
Definition code_of (s : state) (o : oid) : option N :=
  match heap s !! o with
  | Some ob => _code ob
  | None => None
  end.

(** Taking one more strong reference to [o]. *)
Definition own (o : oid) : M unit :=
  modify (fun s => set_owners (o :: owners s) s).

Fixpoint remove_one (o : oid) (l : list oid) : list oid :=
  match l with
  | [] => []
  | x :: l' => if bool_decide (x = o) then l' else x :: remove_one o l'
  end.

(** A caller builds a descriptor and keeps the reference it gets back. *)
Definition construct (c : cls) (a : args) : M oid :=
  let! o := TypeMetaclass_call c a in
  own o;;
  ret o.

(** A caller indexes a descriptor and keeps the Array it gets back;
    the Array itself keeps [self] as its [dtype] ([Array_referents]). *)
Definition getitem (self : oid) (idx : pyobj) : M oid :=
  let! o := Type_getitem self idx in
  own o;;
  ret o.

(** An instance nobody owns goes away: weak references to it are
    cleared and the callback given on line 45 runs, with a weak
    reference that is dead by then.  (For a provisional instance the
    weak reference may be gone before the instance; the callback would
    find nothing to pop anyway.) *)
Definition dealloc (o : oid) : M unit :=
  modify (set_heap (delete o));;
  _on_type_disposal (weakref_ref o).

(** [o] is kept in the attributes of the live instance [entry].  An
    [__init__] can only store descriptors that exist when it runs, so
    the instance is the younger of the two; the reference of an
    iterator type to itself (line 212) does not count here: it is what
    the cycle collector looks through. *)
Definition refers_to (o : oid) (entry : oid * obj) : bool :=
  (o <? entry.1)%nat &&
  bool_decide (o ∈ referents (ob_cls entry.2) (ob_fields entry.2)).

Definition referenced (s : state) (o : oid) : bool :=
  existsb (refers_to o) (map_to_list (heap s)).

(** Nothing holds the live instance [o]: no reference of the program
    and no attribute of a live instance. *)
Definition is_garbage (s : state) (o : oid) : bool :=
  bool_decide (o ∉ owners s) && negb (referenced s o) &&
  bool_decide (is_Some (heap s !! o)).

Definition reclaim (o : oid) (s : state) : state :=
  if is_garbage s o then final_state (dealloc o s) else s.

(** A full collection pass: the youngest instance is looked at first,
    so that what only garbage referred to goes in the same pass. *)
Definition collect (s : state) : state :=
  foldr reclaim s (seq 0 (next_id s)).

(** The program holds [o]: it owns a reference to it, or it holds a
    live instance that keeps [o] in its attributes. *)
Inductive held (s : state) : oid -> Prop :=
  | held_owner o : o ∈ owners s -> held s o
  | held_attr o o' ob' :
      heap s !! o' = Some ob' -> (o < o')%nat ->
      o ∈ referents (ob_cls ob') (ob_fields ob') ->
      held s o' -> held s o.

(** [o] can be read from an attribute of an instance the program
    owns. *)
Definition readable (s : state) (o : oid) : bool :=
  existsb (fun entry => bool_decide (entry.1 ∈ owners s) && refers_to o entry)
          (map_to_list (heap s)).

(** What the program around the registry can do. *)
Inductive op :=
  | Construct (c : cls) (a : args)
  | GetItem (self : oid) (idx : pyobj)
  | Hold (o : oid)          (* an owner copies its reference, or reads
                               one from an attribute of an instance
                               it owns *)
  | Release (o : oid)       (* an owner drops its reference *)
  | Reclaim (o : oid)       (* reference counting frees one instance *)
  | Collect.                (* the cycle collector runs *)

Definition step (e : op) (s : state) : state :=
  match e with
  | Construct c a => final_state (construct c a s)
  | GetItem self idx => final_state (getitem self idx s)
  | Hold o =>
    if bool_decide (o ∈ owners s)
       || (readable s o && bool_decide (is_Some (code_of s o)))
    then set_owners (o :: owners s) s else s
  | Release o => set_owners (remove_one o (owners s)) s
  | Reclaim o => reclaim o s
  | Collect => collect s
  end.

Definition run (es : list op) (s : state) : state :=
  foldl (fun s e => step e s) s es.

Inductive reachable : state -> Prop :=
  | reachable_init : reachable init_state
  | reachable_step e s : reachable s -> reachable (step e s).

(** [steps s s']: the program gets from [s] to [s']. *)
Inductive steps : state -> state -> Prop :=
  | steps_refl s : steps s s
  | steps_step s s' e : steps s s' -> steps s (step e s').

(** The weak references used as keys of the registry. *)
Definition registry_keys (s : state) : list wref := map fst (_typecache s).

(** A caller builds descriptors one after the other and keeps them
    all: for each request, the code of the instance it got back, or the
    exception raised. *)
Fixpoint construct_all (reqs : list (cls * args)) (s : state)
  : list (exn + option N) :=
  match reqs with
  | [] => []
  | (c, a) :: reqs' =>
    let r := construct c a s in
    match r with
    | Return o s' => inr (code_of s' o)
    | Raise e _ => inl e
    end :: construct_all reqs' (final_state r)
  end.

(** The class and key each request asks for. *)
Definition requested (reqs : list (cls * args)) : list (cls * pykey) :=
  map (fun r => (r.1, init_key r.1 r.2)) reqs.

(** ** The states a construction goes through *)

(** After line 43: the provisional instance exists. *)
Definition alloc (c : cls) (a : args) (s : state) : state :=
  set_heap (insert (next_id s) (new_obj c a (next_id s)))
           (set_next_id (S (next_id s)) s).

(** After line 18: a code has been drawn. *)
Definition drawn (s : state) : state := set_typecodes (_typecodes s + 1) s.

(** After lines 51-53: the provisional instance [inst] has become the
    canonical one. *)
Definition finalized (inst : oid) (s : state) : state :=
  set_typecache (_typecache s ++ [(inst, inst)])
    (set_heap (alter (with_code (_typecodes s)) inst) (drawn s)).

(** ** The invariant of the registry *)

Record wf (s : state) : Prop := {
  wf_fresh : forall o ob, heap s !! o = Some ob -> (o < next_id s)%nat;
  wf_code_bound : forall o ob n,
    heap s !! o = Some ob -> _code ob = Some n -> n < _typecodes s;
  wf_code_inj : forall o1 o2 ob1 ob2 n,
    heap s !! o1 = Some ob1 -> heap s !! o2 = Some ob2 ->
    _code ob1 = Some n -> _code ob2 = Some n -> o1 = o2;
  wf_entry : forall k v, (k, v) ∈ _typecache s ->
    v = k /\ exists ob, heap s !! k = Some ob /\ is_Some (_code ob);
  wf_nodup : NoDup (registry_keys s);
  wf_unique : forall k1 k2 ob1 ob2,
    k1 ∈ registry_keys s -> k2 ∈ registry_keys s ->
    heap s !! k1 = Some ob1 -> heap s !! k2 = Some ob2 ->
    Type_eq ob1 ob2 = true -> k1 = k2;
  wf_coded : forall o ob,
    heap s !! o = Some ob -> is_Some (_code ob) -> o ∈ registry_keys s;
  wf_owned : forall o, o ∈ owners s ->
    exists ob, heap s !! o = Some ob /\ is_Some (_code ob);
  wf_iter : forall o ob, heap s !! o = Some ob ->
    _iterator_type ob =
    if subclass_IteratorType (ob_cls ob) && runs_IteratorType_init (ob_cls ob)
    then Some o else None;
  wf_concrete : forall o ob, heap s !! o = Some ob ->
    abstractmethods (ob_cls ob) = [];
}.

End abstracttypes.

Arguments Return {U A} a s.
Arguments Raise {U A} e s.

Notation "'let!' x ':=' m 'in' k" := (bind m (fun x => k))
  (at level 10, x name, m at level 100, k at level 200).
Notation "m ';;' k" := (bind m (fun _ => k))
  (at level 100, k at level 200, right associativity).

(** ** A small universe of variants to run the embedding on *)

Inductive demo_cls := Integer | Float | RangeIterator | Function | ArrayT.

Inductive demo_args :=
  | Named (nm : string)
  | ArrayOf (dtype : oid) (ndim : nat) (lay : layout).

Global Instance demo_cls_eq_dec : EqDecision demo_cls.
Proof. solve_decision. Defined.

Global Instance demo_args_eq_dec : EqDecision demo_args.
Proof. solve_decision. Defined.

Definition demo_name (a : demo_args) : string :=
  match a with Named nm => nm | ArrayOf _ _ _ => "array" end.

Definition demo : TypeUniverse := {|
  cls := demo_cls;
  args := demo_args;
  pykey := demo_args;
  hash := fun _ => 0%Z;
  str_key := Named;
  abstractmethods := fun c =>
    match c with Function => ["get_call_type"] | _ => [] end;
  subclass_IteratorType := fun c =>
    match c with RangeIterator => true | _ => false end;
  runs_IteratorType_init := fun _ => true;
  iterator_type_override := fun _ => None;
  referents := fun _ a =>
    match a with ArrayOf dtype _ _ => [dtype] | Named _ => [] end;
  init_name := fun _ a => demo_name a;
  init_param := fun c _ => match c with ArrayT => true | _ => false end;
  key_override := fun c => match c with ArrayT => Some id | _ => None end;
  cast_override := fun c =>
    match c with
    | Integer => Some (fun x => match x with PyInt z => inr (PyInt z) | _ => inl TypeError end)
    | _ => None
    end;
  Array := ArrayT;
  Array_args := ArrayOf;
  Array_referents := fun _ _ _ => eq_refl;
|}.


(** A few runs of the program on this universe. *)

Definition demo_slice (step : Z) : pyobj := PySlice PyNone PyNone (PyInt step).

(** [int32] has been built and is held by its caller. *)
Definition demo_held : @state demo :=
  run [@Construct demo Integer (Named "int32")] init_state.

(** [int32] has been asked for a second time. *)
Definition demo_again : @state demo :=
  run [@Construct demo Integer (Named "int32")] demo_held.

(** Other descriptors come and go while [int32] stays held. *)
Definition demo_busy : @state demo :=
  run [@Construct demo Float (Named "int32"); Hold 0%nat; Release 0%nat;
       @Construct demo Integer (Named "int32"); Release 0%nat; Collect]
      demo_held.

(** [float64] has been built and its only owner has let go of it. *)
Definition demo_released : @state demo :=
  run [@Construct demo Float (Named "float64"); Release 0%nat] init_state.

(** A range iterator type and an array type are alive. *)
Definition demo_iter : @state demo :=
  run [@Construct demo RangeIterator (Named "range_iter");
       @Construct demo Integer (Named "int32");
       GetItem 1%nat (PyTuple [demo_slice 1; demo_slice 2])] init_state.

Definition demo_requests : list (demo_cls * demo_args) :=
  [(Integer, Named "int32"); (Float, Named "int32");
   (Integer, Named "int64"); (ArrayT, ArrayOf 0 1 LayoutC)].

(** The state with no instance left after [n] allocations and [n]
    codes drawn, and a program that gets there: build [int32], drop it
    and let reference counting free it, [n] times over. *)
Definition demo_idle (n : nat) : @state demo :=
  mkState ∅ n (N.of_nat n) [] [].

Definition demo_churn (n : nat) : list (@op demo) :=
  flat_map (fun i => [@Construct demo Integer (Named "int32");
                      Release i; Reclaim i])
           (seq 0 n).

(** The counter has run out. *)
Definition demo_exhausted : @state demo := demo_idle (N.to_nat (2 ^ 32)).

(** The base class [Type] alone, called as [Type(name, param)]. *)
Definition plain : TypeUniverse := {|
  cls := unit;
  args := string * bool * list oid;
  pykey := string;
  hash := fun _ => 0%Z;
  str_key := id;
  abstractmethods := fun _ => [];
  subclass_IteratorType := fun _ => false;
  runs_IteratorType_init := fun _ => true;
  iterator_type_override := fun _ => None;
  referents := fun _ a => a.2;
  init_name := fun _ a => a.1.1;
  init_param := fun _ a => a.1.2;
  key_override := fun _ => None;
  cast_override := fun _ => None;
  Array := tt;
  Array_args := fun self _ _ => ("array", true, [self]);
  Array_referents := fun _ _ _ => eq_refl;
|}.

(** [Type("x", True)] has been built and is held. *)
Definition plain_held : @state plain :=
  run [@Construct plain tt ("x", true, [])] init_state.

(** [int32[::1]] has been built from a held [int32]. *)
Definition demo_indexed : @state demo :=
  run [GetItem 0%nat (demo_slice 1)] demo_held.

(** [int32[::1]] is held and [int32] itself has been let go of. *)
Definition demo_kept : @state demo :=
  run [@Construct demo Integer (Named "int32"); GetItem 0%nat (demo_slice 1);
       Release 0%nat] init_state.

(** [int32[::1]] and then [int32] have both been let go of. *)
Definition demo_dropped : @state demo :=
  run [@Construct demo Integer (Named "int32"); GetItem 0%nat (demo_slice 1);
       Release 1%nat; Release 0%nat] init_state.

(** Two iterator types written away from the pattern of the base class:
    the [__init__] of [Bare] calls [Type.__init__] and not
    [IteratorType.__init__]; [Chained] defines an [iterator_type] of its
    own, which returns the descriptor it was built around. *)
Inductive odd_cls := Bare | Chained.

Global Instance odd_cls_eq_dec : EqDecision odd_cls.
Proof. solve_decision. Defined.

Definition odd : TypeUniverse := {|
  cls := odd_cls;
  args := string * list oid;
  pykey := string;
  hash := fun _ => 0%Z;
  str_key := id;
  abstractmethods := fun _ => [];
  subclass_IteratorType := fun _ => true;
  runs_IteratorType_init := fun c => match c with Bare => false | Chained => true end;
  iterator_type_override := fun c =>
    match c with
    | Bare => None
    | Chained => Some (fun self a => hd self a.2)
    end;
  referents := fun _ a => a.2;
  init_name := fun _ a => a.1;
  init_param := fun _ _ => false;
  key_override := fun _ => None;
  cast_override := fun _ => None;
  Array := Chained;
  Array_args := fun self _ _ => ("array", [self]);
  Array_referents := fun _ _ _ => eq_refl;
|}.

(** One instance of each is held. *)
Definition odd_held : @state odd :=
  run [@Construct odd Bare ("bare", []);
       @Construct odd Chained ("chained", [0%nat])] init_state.

(** * Properties *)

Section properties.

Context {U : TypeUniverse}.

Implicit Types (s : state) (o k inst : nat) (ob : obj) (c : cls) (a : args).

(** ** The key-equality protocol *)

Lemma Type_eq_true ob1 ob2 :
  Type_eq ob1 ob2 = true <-> ob_cls ob1 = ob_cls ob2 /\ key ob1 = key ob2.
Proof.
  unfold Type_eq. rewrite andb_true_iff, !bool_decide_eq_true. done.
Qed.

Lemma Type_eq_refl ob : Type_eq ob ob = true.
Proof. by apply Type_eq_true. Qed.

Lemma Type_eq_sym ob1 ob2 : Type_eq ob1 ob2 = Type_eq ob2 ob1.
Proof.
  apply eq_true_iff_eq. rewrite !Type_eq_true. intuition congruence.
Qed.

Lemma Type_eq_trans ob1 ob2 ob3 :
  Type_eq ob1 ob2 = true -> Type_eq ob2 ob3 = true -> Type_eq ob1 ob3 = true.
Proof. rewrite !Type_eq_true. intuition congruence. Qed.

(** ** The registry dict *)

(** Weak references that compare equal through their live referents
    have the same hash, so a dict finds them in the same bucket and the
    scan of [dict_get] sees what a hashed lookup sees. *)
Lemma weakref_eq_hash h wr1 wr2 ob1 ob2 :
  h !! wr1 = Some ob1 -> h !! wr2 = Some ob2 ->
  weakref_eq h wr1 wr2 = true -> Type_hash ob1 = Type_hash ob2.
Proof.
  intros H1 H2. unfold weakref_eq, Type_hash. rewrite H1, H2.
  intros [_ Hkey]%Type_eq_true. by rewrite Hkey.
Qed.

Lemma dict_get_Some h d k v :
  dict_get h d k = Some v ->
  exists k', (k', v) ∈ d /\ weakref_eq h k' k = true.
Proof.
  induction d as [|[k' v'] d IH]; simpl; [done|].
  destruct (weakref_eq h k' k) eqn:E.
  - intros [= ->]. exists k'. split; [left | done].
  - intros [k'' [Hin Heq]]%IH. exists k''. split; [by right | done].
Qed.

Lemma dict_get_None h d k :
  dict_get h d k = None <->
  forall k' v, (k', v) ∈ d -> weakref_eq h k' k = false.
Proof.
  induction d as [|[k' v'] d IH]; simpl.
  - split; [|done]. intros _ ?? Hin. by apply elem_of_nil in Hin.
  - destruct (weakref_eq h k' k) eqn:E.
    + split; [done|]. intros Hall. specialize (Hall k' v' ltac:(left)). congruence.
    + rewrite IH. split.
      * intros Hall k'' v [[= -> ->]|Hin]%elem_of_cons; eauto.
      * intros Hall k'' v Hin. apply (Hall k'' v). by right.
Qed.

Lemma dict_set_fresh h d k v :
  dict_get h d k = None -> dict_set h d k v = d ++ [(k, v)].
Proof.
  induction d as [|[k' v'] d IH]; simpl; [done|].
  destruct (weakref_eq h k' k); [done|]. intros ?. by rewrite IH.
Qed.

Lemma filter_keep_all (d : list (nat * nat)) k :
  k ∉ map fst d -> filter (fun e => e.1 <> k) d = d.
Proof.
  induction d as [|[k' v'] d IH]; simpl; [done|].
  intros Hnotin. apply not_elem_of_cons in Hnotin as [Hne Hnotin].
  rewrite filter_cons_True by (simpl; congruence). by rewrite IH.
Qed.

Lemma dict_pop_dead h d k :
  h !! k = None -> NoDup (map fst d) ->
  dict_pop h d k = filter (fun e => e.1 <> k) d.
Proof.
  intros Hk. induction d as [|[k' v'] d IH]; simpl; [done|].
  intros [Hnotin Hnd]%NoDup_cons.
  assert (Heq : weakref_eq h k' k = bool_decide (k' = k)).
  { unfold weakref_eq. rewrite Hk. by destruct (h !! k'). }
  rewrite Heq. case_bool_decide as Hkk.
  - subst k'. rewrite filter_cons_False by (simpl; tauto).
    by rewrite filter_keep_all.
  - rewrite filter_cons_True by done. by rewrite IH.
Qed.

Lemma filter_keys (d : list (nat * nat)) k :
  map fst (filter (fun e => e.1 <> k) d) = filter (fun k' => k' <> k) (map fst d).
Proof.
  induction d as [|[k' v'] d IH]; simpl; [done|].
  rewrite !filter_cons. simpl. destruct (decide (k' <> k)); simpl; by rewrite IH.
Qed.

(** ** What [__call__] computes *)

Lemma lookup_with_code (h : gmap nat obj) n i k :
  alter (with_code n) i h !! k =
  (fun ob => if decide (i = k) then with_code n ob else ob) <$> h !! k.
Proof.
  rewrite lookup_alter. case_decide; [subst|]; by destruct (h !! k).
Qed.

Lemma weakref_eq_with_code h n i k1 k2 :
  weakref_eq (alter (with_code n) i h) k1 k2 = weakref_eq h k1 k2.
Proof.
  unfold weakref_eq. rewrite !lookup_with_code.
  destruct (h !! k1), (h !! k2); simpl; repeat case_decide; done.
Qed.

Lemma dict_get_with_code h n i d k :
  dict_get (alter (with_code n) i h) d k = dict_get h d k.
Proof.
  induction d as [|[k' v'] d IH]; simpl; [done|].
  by rewrite weakref_eq_with_code, IH.
Qed.

Lemma dict_set_with_code h n i d k v :
  dict_set (alter (with_code n) i h) d k v = dict_set h d k v.
Proof.
  induction d as [|[k' v'] d IH]; simpl; [done|].
  by rewrite weakref_eq_with_code, IH.
Qed.

Lemma type_call_abstract c a s :
  abstractmethods c <> [] -> type_call c a s = Raise TypeError s.
Proof. unfold type_call. by destruct (abstractmethods c). Qed.

Lemma call_abstract c a s :
  abstractmethods c <> [] -> TypeMetaclass_call c a s = Raise TypeError s.
Proof.
  intros Habs. unfold TypeMetaclass_call, bind. by rewrite type_call_abstract.
Qed.

Lemma call_unfold c a s :
  wf s -> abstractmethods c = [] ->
  TypeMetaclass_call c a s =
    match dict_get (heap (alloc c a s)) (_typecache s) (next_id s) with
    | Some orig => Return orig (alloc c a s)
    | None =>
      if _typecodes s <? 2 ^ 32
      then Return (next_id s) (finalized (next_id s) (alloc c a s))
      else Raise AssertionError (drawn (alloc c a s))
    end.
Proof.
  intros Hwf Habs.
  unfold TypeMetaclass_call, type_call. rewrite Habs.
  unfold bind, gets, modify, ret, weakref_ref. cbn.
  change (set_heap _ (set_next_id _ s)) with (alloc c a s).
  destruct (dict_get _ _ _) as [w|] eqn:Hget.
  - apply dict_get_Some in Hget as (k' & Hin & _).
    destruct (wf_entry s Hwf _ _ Hin) as (-> & ob & Hk' & _).
    pose proof (wf_fresh s Hwf _ _ Hk') as Hlt.
    unfold weakref_deref, gets. cbn.
    rewrite lookup_insert_ne by lia. by rewrite Hk'.
  - cbn. destruct (_typecodes s <? 2 ^ 32) eqn:Hlt; cbn; [|done].
    rewrite dict_set_with_code, dict_set_fresh by done. done.
Qed.

Lemma alloc_lookup c a s o :
  heap (alloc c a s) !! o =
  if decide (next_id s = o) then Some (new_obj c a o) else heap s !! o.
Proof. cbn. rewrite lookup_insert. by case_decide; subst. Qed.

Lemma new_obj_cls c a o : ob_cls (new_obj c a o) = c.
Proof. unfold new_obj. by destruct (_ && _). Qed.

Lemma new_obj_fields c a o : ob_fields (new_obj c a o) = a.
Proof. unfold new_obj. by destruct (_ && _). Qed.

Lemma new_obj_name c a o : name (new_obj c a o) = init_name c a.
Proof. unfold new_obj. by destruct (_ && _). Qed.

Lemma new_obj_code c a o : _code (new_obj c a o) = None.
Proof. unfold new_obj. by destruct (_ && _). Qed.

Lemma new_obj_iter c a o :
  _iterator_type (new_obj c a o) =
  if subclass_IteratorType c && runs_IteratorType_init c
  then Some o else None.
Proof. unfold new_obj. by destruct (_ && _). Qed.

(** The key a variant derives from constructor arguments. *)
Lemma new_obj_key c a o : key (new_obj c a o) = init_key c a.
Proof.
  unfold init_key, key. by rewrite !new_obj_cls, !new_obj_fields, !new_obj_name.
Qed.

Lemma Type_eq_new_obj ob c a o :
  Type_eq ob (new_obj c a o) = true <-> ob_cls ob = c /\ key ob = init_key c a.
Proof. by rewrite Type_eq_true, new_obj_cls, new_obj_key. Qed.

(** ** The invariant holds in every reachable state *)

Lemma wf_init : wf init_state.
Proof.
  constructor; cbn; try (intros; simplify_map_eq; fail).
  - intros ?? Hin. by apply elem_of_nil in Hin.
  - constructor.
  - intros ? Hin. by apply elem_of_nil in Hin.
Qed.

Lemma wf_alloc c a s : wf s -> abstractmethods c = [] -> wf (alloc c a s).
Proof.
  intros Hwf Habs. constructor.
  - intros o ob. rewrite alloc_lookup. cbn. case_decide; [intros; lia|].
    intros Ho%(wf_fresh s Hwf). lia.
  - intros o ob n. rewrite alloc_lookup. cbn. case_decide.
    + intros [= <-]. by rewrite new_obj_code.
    + apply (wf_code_bound s Hwf).
  - intros o1 o2 ob1 ob2 n. rewrite !alloc_lookup.
    repeat case_decide.
    + intros [= <-]. by rewrite new_obj_code.
    + intros [= <-]. by rewrite new_obj_code.
    + intros _ [= <-]. by rewrite new_obj_code.
    + apply (wf_code_inj s Hwf).
  - intros k v Hin. destruct (wf_entry s Hwf _ _ Hin) as (-> & ob & Hk & Hc).
    split; [done|]. exists ob. split; [|done].
    rewrite alloc_lookup. case_decide; [|done].
    apply (wf_fresh s Hwf) in Hk. lia.
  - apply (wf_nodup s Hwf).
  - intros k1 k2 ob1 ob2 Hk1 Hk2. rewrite !alloc_lookup.
    assert (Hlt : forall k, k ∈ registry_keys s -> next_id s <> k).
    { intros k [[k' v] [-> Hin]]%list_elem_of_fmap.
      destruct (wf_entry s Hwf _ _ Hin) as (_ & ob & Hk & _).
      apply (wf_fresh s Hwf) in Hk. simpl. lia. }
    rewrite !decide_False by auto. by apply (wf_unique s Hwf).
  - intros o ob. rewrite alloc_lookup. case_decide.
    + intros [= <-]. rewrite new_obj_code. by intros [? ?].
    + apply (wf_coded s Hwf).
  - intros o Ho. destruct (wf_owned s Hwf _ Ho) as (ob & Hob & Hc).
    exists ob. split; [|done]. rewrite alloc_lookup. case_decide; [|done].
    apply (wf_fresh s Hwf) in Hob. lia.
  - intros o ob. rewrite alloc_lookup. case_decide.
    + intros [= <-]. by rewrite new_obj_iter, new_obj_cls.
    + apply (wf_iter s Hwf).
  - intros o ob. rewrite alloc_lookup. case_decide.
    + intros [= <-]. by rewrite new_obj_cls.
    + apply (wf_concrete s Hwf).
Qed.

Lemma wf_drawn s : wf s -> wf (drawn s).
Proof.
  intros Hwf. constructor; try apply Hwf.
  intros o ob n Hob Hn. cbn. pose proof (wf_code_bound s Hwf _ _ _ Hob Hn). lia.
Qed.

Lemma finalized_lookup inst s o :
  heap (finalized inst s) !! o =
  (fun ob => if decide (inst = o) then with_code (_typecodes s) ob else ob)
    <$> heap s !! o.
Proof. cbn. apply lookup_with_code. Qed.

Lemma finalized_keys inst s :
  registry_keys (finalized inst s) = registry_keys s ++ [inst].
Proof. unfold registry_keys. cbn. by rewrite map_app. Qed.

Lemma registry_key_alive s k :
  wf s -> k ∈ registry_keys s ->
  exists ob, heap s !! k = Some ob /\ is_Some (_code ob).
Proof.
  intros Hwf [[k' v] [-> Hin]]%list_elem_of_fmap.
  by destruct (wf_entry s Hwf _ _ Hin) as (_ & Hob).
Qed.

Lemma registry_key_entry s k :
  wf s -> k ∈ registry_keys s -> (k, k) ∈ _typecache s.
Proof.
  intros Hwf [[k' v] [-> Hin]]%list_elem_of_fmap.
  by destruct (wf_entry s Hwf _ _ Hin) as (-> & _).
Qed.

Lemma wf_finalized inst s ob :
  wf s -> heap s !! inst = Some ob -> _code ob = None ->
  (forall k obk, k ∈ registry_keys s -> heap s !! k = Some obk ->
                 Type_eq obk ob = false) ->
  wf (finalized inst s).
Proof.
  intros Hwf Hinst Hnone Hnew.
  assert (Hnotkey : inst ∉ registry_keys s).
  { intros (ob' & Hob' & [n Hn])%registry_key_alive; [|done]. congruence. }
  constructor.
  - intros o ob'. rewrite finalized_lookup.
    intros (ob0 & Hob0 & _)%fmap_Some. by apply (wf_fresh s Hwf) in Hob0.
  - intros o ob' n. rewrite finalized_lookup.
    intros (ob0 & Hob0 & ->)%fmap_Some. cbn. case_decide; cbn.
    + intros [= <-]. lia.
    + intros Hn. pose proof (wf_code_bound s Hwf _ _ _ Hob0 Hn). lia.
  - intros o1 o2 ob1 ob2 n. rewrite !finalized_lookup.
    intros (ob1' & Hob1 & ->)%fmap_Some (ob2' & Hob2 & ->)%fmap_Some.
    repeat case_decide; cbn; try congruence.
    + intros [= <-] Hn.
      pose proof (wf_code_bound s Hwf _ _ _ Hob2 Hn). lia.
    + intros Hn [= <-].
      pose proof (wf_code_bound s Hwf _ _ _ Hob1 Hn). lia.
    + by apply (wf_code_inj s Hwf).
  - intros k v. cbn. rewrite elem_of_app, list_elem_of_singleton.
    intros [Hin | [= -> ->]].
    + destruct (wf_entry s Hwf _ _ Hin) as (-> & obk & Hk & Hc).
      split; [done|]. rewrite lookup_with_code, Hk. cbn.
      eexists. split; [done|]. case_decide; [by eexists | done].
    + split; [done|]. rewrite lookup_with_code, Hinst. cbn.
      eexists. split; [done|]. rewrite decide_True by done. by eexists.
  - rewrite finalized_keys. apply NoDup_app. split; [apply (wf_nodup s Hwf)|].
    split; [|apply NoDup_singleton].
    intros k Hk ->%list_elem_of_singleton. done.
  - intros k1 k2 ob1 ob2. rewrite finalized_keys, !elem_of_app, !list_elem_of_singleton.
    rewrite !finalized_lookup.
    intros Hk1 Hk2 (ob1' & Hob1 & ->)%fmap_Some (ob2' & Hob2 & ->)%fmap_Some.
    assert (Heq : forall x y (b1 b2 : bool),
      Type_eq (if b1 then with_code (_typecodes s) x else x)
              (if b2 then with_code (_typecodes s) y else y) = Type_eq x y).
    { by intros ?? [] []. }
    destruct (decide (inst = k1)) as [E1|E1], (decide (inst = k2)) as [E2|E2];
      cbn; intros Hteq.
    + congruence.
    + subst k1. destruct Hk2 as [Hk2|]; [|done].
      assert (ob1' = ob) as -> by congruence.
      rewrite Type_eq_sym in Hteq.
      assert (Type_eq ob2' ob = true) as Habs by done.
      rewrite (Hnew k2 ob2') in Habs; done.
    + subst k2. destruct Hk1 as [Hk1|]; [|done].
      assert (ob2' = ob) as -> by congruence.
      assert (Type_eq ob1' ob = true) as Habs by done.
      rewrite (Hnew k1 ob1') in Habs; done.
    + destruct Hk1 as [Hk1|]; [|done]. destruct Hk2 as [Hk2|]; [|done].
      by apply (wf_unique s Hwf k1 k2 ob1' ob2').
  - intros o ob'. rewrite finalized_lookup, finalized_keys, elem_of_app,
      list_elem_of_singleton.
    intros (ob0 & Hob0 & ->)%fmap_Some. case_decide; [by right|].
    intros Hc. left. by apply (wf_coded s Hwf o ob0).
  - intros o Ho. destruct (wf_owned s Hwf _ Ho) as (ob' & Hob' & Hc).
    rewrite finalized_lookup, Hob'. cbn. eexists. split; [done|].
    case_decide; [by eexists | done].
  - intros o ob'. rewrite finalized_lookup.
    intros (ob0 & Hob0 & ->)%fmap_Some.
    pose proof (wf_iter s Hwf _ _ Hob0). by case_decide.
  - intros o ob'. rewrite finalized_lookup.
    intros (ob0 & Hob0 & ->)%fmap_Some.
    pose proof (wf_concrete s Hwf _ _ Hob0). by case_decide.
Qed.

Lemma wf_own o s :
  wf s -> (exists ob, heap s !! o = Some ob /\ is_Some (_code ob)) ->
  wf (set_owners (o :: owners s) s).
Proof.
  intros Hwf Ho. constructor; try apply Hwf.
  intros o' [->|Hin]%elem_of_cons; [done|]. by apply (wf_owned s Hwf).
Qed.

Lemma elem_of_remove_one o x l : x ∈ remove_one o l -> x ∈ l.
Proof.
  induction l as [|y l IH]; simpl; [done|].
  case_bool_decide; [by right|].
  intros [->|Hin]%elem_of_cons; [left | right; auto].
Qed.

Lemma wf_release o s : wf s -> wf (set_owners (remove_one o (owners s)) s).
Proof.
  intros Hwf. constructor; try apply Hwf.
  intros o' Hin%elem_of_remove_one. by apply (wf_owned s Hwf).
Qed.

(** The state once [o] has gone away. *)
Lemma dealloc_state o s :
  wf s ->
  dealloc o s =
  Return tt (set_typecache (filter (fun e => e.1 <> o) (_typecache s))
                           (set_heap (delete o) s)).
Proof.
  intros Hwf. unfold dealloc, _on_type_disposal, bind, modify, weakref_ref. cbn.
  rewrite dict_pop_dead; [done | apply lookup_delete_eq | apply (wf_nodup s Hwf)].
Qed.

Lemma dealloc_keys o s :
  wf s ->
  registry_keys (final_state (dealloc o s)) =
  filter (fun k => k <> o) (registry_keys s).
Proof.
  intros Hwf. rewrite dealloc_state by done. cbn. unfold registry_keys. cbn.
  apply filter_keys.
Qed.

Lemma dealloc_heap o s :
  wf s -> heap (final_state (dealloc o s)) = delete o (heap s).
Proof. intros Hwf. by rewrite dealloc_state. Qed.

Lemma dealloc_owners o s : owners (final_state (dealloc o s)) = owners s.
Proof. done. Qed.

Lemma dealloc_typecodes o s :
  _typecodes (final_state (dealloc o s)) = _typecodes s.
Proof. done. Qed.

Lemma dealloc_next_id o s : next_id (final_state (dealloc o s)) = next_id s.
Proof. done. Qed.

Lemma wf_dealloc o s :
  wf s -> o ∉ owners s -> wf (final_state (dealloc o s)).
Proof.
  intros Hwf Hfree.
  pose proof (dealloc_keys o s Hwf) as Hkeys.
  rewrite (dealloc_state o s Hwf) in *. cbn in Hkeys.
  constructor; cbn.
  - intros o' ob [_ Hob]%lookup_delete_Some. by apply (wf_fresh s Hwf) in Hob.
  - intros o' ob n [_ Hob]%lookup_delete_Some Hn.
    by apply (wf_code_bound s Hwf o' ob).
  - intros o1 o2 ob1 ob2 n [_ H1]%lookup_delete_Some [_ H2]%lookup_delete_Some.
    by apply (wf_code_inj s Hwf).
  - intros k v [Hne Hin]%list_elem_of_filter. cbn in Hne.
    destruct (wf_entry s Hwf _ _ Hin) as (-> & ob & Hk & Hc).
    split; [done|]. exists ob. by rewrite lookup_delete_ne.
  - rewrite Hkeys. apply NoDup_filter, (wf_nodup s Hwf).
  - rewrite Hkeys. intros k1 k2 ob1 ob2 [_ Hk1]%list_elem_of_filter
      [_ Hk2]%list_elem_of_filter [_ H1]%lookup_delete_Some
      [_ H2]%lookup_delete_Some.
    by apply (wf_unique s Hwf).
  - rewrite Hkeys. intros o' ob [Hne Hob]%lookup_delete_Some Hc.
    apply list_elem_of_filter. split; [done|]. by apply (wf_coded s Hwf o' ob).
  - intros o' Ho'. destruct (wf_owned s Hwf _ Ho') as (ob & Hob & Hc).
    exists ob. split; [|done]. apply lookup_delete_Some. split; [|done].
    intros ->. done.
  - intros o' ob [_ Hob]%lookup_delete_Some. by apply (wf_iter s Hwf).
  - intros o' ob [_ Hob]%lookup_delete_Some. by apply (wf_concrete s Hwf o').
Qed.

Lemma referenced_true s o :
  referenced s o = true <->
  exists o' ob', heap s !! o' = Some ob' /\ (o < o')%nat /\
                 o ∈ referents (ob_cls ob') (ob_fields ob').
Proof.
  unfold referenced. rewrite existsb_exists. split.
  - intros ([o' ob'] & Hin & Href). apply list_elem_of_In in Hin.
    apply elem_of_map_to_list in Hin.
    apply andb_true_iff in Href as [Hlt Href].
    apply Nat.ltb_lt in Hlt. apply bool_decide_eq_true in Href.
    by exists o', ob'.
  - intros (o' & ob' & Hob' & Hlt & Href). exists (o', ob'). split.
    + apply list_elem_of_In. by apply elem_of_map_to_list.
    + apply andb_true_iff. split; [by apply Nat.ltb_lt|].
      by apply bool_decide_eq_true.
Qed.

Lemma is_garbage_true s o :
  is_garbage s o = true <->
  (o ∉ owners s) /\ referenced s o = false /\ is_Some (heap s !! o).
Proof.
  unfold is_garbage.
  rewrite !andb_true_iff, negb_true_iff, !bool_decide_eq_true. tauto.
Qed.

(** Nothing refers to the youngest instance. *)
Lemma referenced_youngest s o :
  wf s -> (next_id s <= S o)%nat -> referenced s o = false.
Proof.
  intros Hwf Hle. apply not_true_is_false.
  intros (o' & ob' & Hob' & Hlt & _)%referenced_true.
  apply (wf_fresh s Hwf) in Hob'. lia.
Qed.

Lemma wf_reclaim o s : wf s -> wf (reclaim o s).
Proof.
  intros Hwf. unfold reclaim. destruct (is_garbage s o) eqn:Hg; [|done].
  apply is_garbage_true in Hg as (Hfree & _). by apply wf_dealloc.
Qed.

Lemma wf_reclaim_all l s : wf s -> wf (foldr reclaim s l).
Proof.
  intros Hwf. induction l as [|o l IH]; cbn [foldr]; [done|].
  by apply wf_reclaim.
Qed.

Lemma wf_collect s : wf s -> wf (collect s).
Proof. apply wf_reclaim_all. Qed.

(** [__call__] hands back an instance that is alive and carries a code. *)
Lemma call_Return c a s o s' :
  wf s -> TypeMetaclass_call c a s = Return o s' ->
  wf s' /\ exists ob, heap s' !! o = Some ob /\ is_Some (_code ob).
Proof.
  intros Hwf. destruct (abstractmethods c) as [|m ms] eqn:Habs.
  2: { rewrite call_abstract; [done | by rewrite Habs]. }
  rewrite call_unfold by done.
  pose proof (wf_alloc c a s Hwf Habs) as Hwf1.
  destruct (dict_get _ _ _) as [k|] eqn:Hget.
  - intros [= <- <-]. split; [done|].
    apply dict_get_Some in Hget as (k' & Hin & _).
    by destruct (wf_entry _ Hwf1 _ _ Hin) as (-> & Hob).
  - destruct (_typecodes s <? 2 ^ 32); [|done]. intros [= <- <-].
    assert (Hinst : heap (alloc c a s) !! next_id s = Some (new_obj c a (next_id s))).
    { rewrite alloc_lookup. by rewrite decide_True. }
    split.
    + eapply wf_finalized; [done | apply Hinst | apply new_obj_code |].
      intros k obk Hk Hobk.
      pose proof (registry_key_entry _ k Hwf1 Hk) as Hin.
      pose proof (proj1 (dict_get_None _ _ _) Hget _ _ Hin) as Hne.
      unfold weakref_eq in Hne. by rewrite Hobk, Hinst in Hne.
    + rewrite finalized_lookup, Hinst. cbn. rewrite decide_True by done.
      eexists. split; [done|]. by eexists.
Qed.

Lemma call_wf c a s : wf s -> wf (final_state (TypeMetaclass_call c a s)).
Proof.
  intros Hwf. destruct (TypeMetaclass_call c a s) as [o s'|e s'] eqn:Hcall.
  { by apply call_Return in Hcall as [? _]. }
  destruct (abstractmethods c) as [|m ms] eqn:Habs.
  2: { rewrite call_abstract in Hcall; [|by rewrite Habs]. by injection Hcall as <- <-. }
  rewrite call_unfold in Hcall by done.
  destruct (dict_get _ _ _); [done|].
  destruct (_typecodes s <? 2 ^ 32); [done|]. injection Hcall as <- <-.
  cbn. by apply wf_drawn, wf_alloc.
Qed.

Lemma construct_unfold c a s :
  construct c a s =
  match TypeMetaclass_call c a s with
  | Return o s' => Return o (set_owners (o :: owners s') s')
  | Raise e s' => Raise e s'
  end.
Proof. unfold construct, bind. by destruct (TypeMetaclass_call c a s). Qed.

Lemma getitem_unfold self idx s :
  getitem self idx s =
  match _determine_array_spec idx with
  | inl e => Raise e s
  | inr (ndim, lay) => construct Array (Array_args self ndim lay) s
  end.
Proof.
  unfold getitem, Type_getitem, construct.
  by destruct (_determine_array_spec idx) as [e|[ndim lay]].
Qed.

Lemma wf_construct c a s : wf s -> wf (final_state (construct c a s)).
Proof.
  intros Hwf. rewrite construct_unfold.
  destruct (TypeMetaclass_call c a s) as [o s'|e s'] eqn:Hcall; cbn.
  - apply call_Return in Hcall as [Hwf' Ho]; [|done]. by apply wf_own.
  - pose proof (call_wf c a s Hwf) as Hwf'. by rewrite Hcall in Hwf'.
Qed.

Lemma wf_step e s : wf s -> wf (step e s).
Proof.
  intros Hwf. destruct e as [c a|self idx|o|o|o|]; cbn.
  - by apply wf_construct.
  - rewrite getitem_unfold.
    destruct (_determine_array_spec idx) as [?|[ndim lay]]; [done|].
    by apply wf_construct.
  - destruct (_ || _) eqn:Hheld; [|done]. apply wf_own; [done|].
    apply orb_true_iff in Hheld as [Ho | Hread].
    + apply bool_decide_eq_true in Ho. by apply (wf_owned s Hwf).
    + apply andb_true_iff in Hread as [_ Hc].
      apply bool_decide_eq_true in Hc. unfold code_of in Hc.
      destruct (heap s !! o) as [ob|]; [by exists ob | by destruct Hc].
  - by apply wf_release.
  - by apply wf_reclaim.
  - by apply wf_collect.
Qed.

Lemma wf_reachable s : reachable s -> wf s.
Proof. induction 1; [apply wf_init | by apply wf_step]. Qed.

Lemma wf_steps s s' : steps s s' -> wf s -> wf s'.
Proof. induction 1; [done | intros; by apply wf_step; auto]. Qed.

Lemma reachable_steps s s' : steps s s' -> reachable s -> reachable s'.
Proof. induction 1; [done | intros; constructor; auto]. Qed.

Lemma steps_trans s1 s2 s3 : steps s1 s2 -> steps s2 s3 -> steps s1 s3.
Proof. intros H12. induction 1; [done | constructor; auto]. Qed.

(** ** The two ways a construction can go *)

(** Either the registry holds an instance of the same class with an
    equal key, which is handed back, or it holds none and the
    provisional instance is finalized (if a code can still be drawn). *)
Lemma call_cases c a s :
  wf s -> abstractmethods c = [] ->
  (exists k obk,
      k ∈ registry_keys s /\ heap s !! k = Some obk /\
      ob_cls obk = c /\ key obk = init_key c a /\
      TypeMetaclass_call c a s = Return k (alloc c a s))
  \/
  ((forall k obk, k ∈ registry_keys s -> heap s !! k = Some obk ->
                  ~ (ob_cls obk = c /\ key obk = init_key c a)) /\
   TypeMetaclass_call c a s =
     if _typecodes s <? 2 ^ 32
     then Return (next_id s) (finalized (next_id s) (alloc c a s))
     else Raise AssertionError (drawn (alloc c a s))).
Proof.
  intros Hwf Habs. rewrite call_unfold by done.
  assert (Hinst : heap (alloc c a s) !! next_id s = Some (new_obj c a (next_id s))).
  { rewrite alloc_lookup. by rewrite decide_True. }
  assert (Hold : forall k obk, heap s !! k = Some obk ->
                               heap (alloc c a s) !! k = Some obk).
  { intros k obk Hk. rewrite alloc_lookup. case_decide; [|done].
    apply (wf_fresh s Hwf) in Hk. lia. }
  destruct (dict_get _ _ _) as [v|] eqn:Hget.
  - left. apply dict_get_Some in Hget as (k & Hin & Heq).
    destruct (wf_entry s Hwf _ _ Hin) as (-> & obk & Hk & _).
    exists k, obk. unfold weakref_eq in Heq.
    rewrite (Hold _ _ Hk), Hinst in Heq. apply Type_eq_new_obj in Heq as [??].
    split_and!; try done. apply list_elem_of_fmap. by exists (k, k).
  - right. split; [|done]. intros k obk Hk Hobk Heq.
    pose proof (registry_key_entry s k Hwf Hk) as Hin.
    pose proof (proj1 (dict_get_None _ _ _) Hget _ _ Hin) as Hne.
    unfold weakref_eq in Hne. rewrite (Hold _ _ Hobk), Hinst in Hne.
    apply (Type_eq_new_obj obk c a (next_id s)) in Heq. congruence.
Qed.

(** ** What an operation leaves alone *)

Lemma call_frame c a s o :
  wf s -> (o < next_id s)%nat ->
  heap (final_state (TypeMetaclass_call c a s)) !! o = heap s !! o.
Proof.
  intros Hwf Hlt. destruct (abstractmethods c) as [|m ms] eqn:Habs.
  2: { rewrite call_abstract; [done | by rewrite Habs]. }
  rewrite call_unfold by done.
  destruct (dict_get _ _ _); [|destruct (_typecodes s <? 2 ^ 32)];
    unfold final_state.
  - rewrite alloc_lookup. by rewrite decide_False by lia.
  - rewrite finalized_lookup, alloc_lookup. rewrite decide_False by lia.
    destruct (heap s !! o); simpl; [|done]. by rewrite decide_False by lia.
  - change (heap (drawn ?s)) with (heap s). rewrite alloc_lookup.
    by rewrite decide_False by lia.
Qed.

Lemma call_next_id c a s :
  wf s -> (next_id s <= next_id (final_state (TypeMetaclass_call c a s)))%nat.
Proof.
  intros Hwf. destruct (abstractmethods c) as [|m ms] eqn:Habs.
  2: { rewrite call_abstract; [done | by rewrite Habs]. }
  rewrite call_unfold by done.
  destruct (dict_get _ _ _); [|destruct (_typecodes s <? 2 ^ 32)]; cbn; lia.
Qed.

Lemma call_typecodes c a s :
  wf s -> _typecodes s <= _typecodes (final_state (TypeMetaclass_call c a s)).
Proof.
  intros Hwf. destruct (abstractmethods c) as [|m ms] eqn:Habs.
  2: { rewrite call_abstract; [done | by rewrite Habs]. }
  rewrite call_unfold by done.
  destruct (dict_get _ _ _); [|destruct (_typecodes s <? 2 ^ 32)]; cbn; lia.
Qed.

(** An instance allocated by a construction carries no code or the code
    drawn by that construction. *)
Lemma call_new_code c a s o ob n :
  wf s -> heap (final_state (TypeMetaclass_call c a s)) !! o = Some ob ->
  (next_id s <= o)%nat -> _code ob = Some n -> n = _typecodes s.
Proof.
  intros Hwf. destruct (abstractmethods c) as [|m ms] eqn:Habs.
  2: { rewrite call_abstract; [|by rewrite Habs]. cbn.
       intros Hob%(wf_fresh s Hwf). lia. }
  rewrite call_unfold by done.
  assert (Hnew : forall ob', heap (alloc c a s) !! o = Some ob' ->
                 (next_id s <= o)%nat -> _code ob' = None).
  { intros ob'. rewrite alloc_lookup. case_decide.
    - intros [= <-] _. apply new_obj_code.
    - intros Hob%(wf_fresh s Hwf). lia. }
  destruct (dict_get _ _ _); [|destruct (_typecodes s <? 2 ^ 32)];
    unfold final_state.
  - intros Hob Hle Hn. rewrite (Hnew _ Hob Hle) in Hn. done.
  - rewrite finalized_lookup. intros (ob' & Hob & ->)%fmap_Some Hle.
    case_decide; cbn; [congruence|]. intros Hn. by rewrite (Hnew _ Hob Hle) in Hn.
  - change (heap (drawn ?s)) with (heap s).
    intros Hob Hle Hn. rewrite (Hnew _ Hob Hle) in Hn. done.
Qed.

Lemma construct_heap c a s :
  heap (final_state (construct c a s)) =
  heap (final_state (TypeMetaclass_call c a s)).
Proof. rewrite construct_unfold. by destruct (TypeMetaclass_call c a s). Qed.

Lemma construct_next_id c a s :
  next_id (final_state (construct c a s)) =
  next_id (final_state (TypeMetaclass_call c a s)).
Proof. rewrite construct_unfold. by destruct (TypeMetaclass_call c a s). Qed.

Lemma construct_typecodes c a s :
  _typecodes (final_state (construct c a s)) =
  _typecodes (final_state (TypeMetaclass_call c a s)).
Proof. rewrite construct_unfold. by destruct (TypeMetaclass_call c a s). Qed.

Lemma construct_typecache c a s :
  _typecache (final_state (construct c a s)) =
  _typecache (final_state (TypeMetaclass_call c a s)).
Proof. rewrite construct_unfold. by destruct (TypeMetaclass_call c a s). Qed.

Lemma filter_iff_in {A} (P1 P2 : A -> Prop)
    `{!forall x, Decision (P1 x), !forall x, Decision (P2 x)} (l : list A) :
  (forall x, x ∈ l -> P1 x <-> P2 x) -> filter P1 l = filter P2 l.
Proof.
  induction l as [|x l IH]; [done|]. intros Hiff.
  rewrite !filter_cons. rewrite IH by (intros; apply Hiff; by right).
  apply decide_ext, Hiff. left.
Qed.

Lemma filter_all_true {A} (P : A -> Prop) `{forall x, Decision (P x)} (l : list A) :
  (forall x, x ∈ l -> P x) -> filter P l = l.
Proof.
  induction l as [|x l IH]; [done|]. intros Hl.
  rewrite filter_cons_True by (apply Hl; left).
  rewrite IH; [done|]. intros ??. apply Hl. by right.
Qed.

Lemma registry_keys_alive s :
  wf s -> filter (fun k => is_Some (heap s !! k)) (registry_keys s) = registry_keys s.
Proof.
  intros Hwf. apply filter_all_true. intros k Hk.
  destruct (registry_key_alive s k Hwf Hk) as (ob & -> & _). by eexists.
Qed.

(** Reclaiming takes away garbage and nothing else. *)
Lemma reclaim_owners o s : owners (reclaim o s) = owners s.
Proof. unfold reclaim. by destruct (is_garbage s o). Qed.

Lemma reclaim_next_id o s : next_id (reclaim o s) = next_id s.
Proof. unfold reclaim. by destruct (is_garbage s o). Qed.

Lemma reclaim_typecodes o s : _typecodes (reclaim o s) = _typecodes s.
Proof. unfold reclaim. by destruct (is_garbage s o). Qed.

Lemma reclaim_heap o s :
  wf s ->
  heap (reclaim o s) = if is_garbage s o then delete o (heap s) else heap s.
Proof.
  intros Hwf. unfold reclaim. destruct (is_garbage s o); [|done].
  by apply dealloc_heap.
Qed.

Lemma reclaim_keys o s :
  wf s ->
  registry_keys (reclaim o s)
  = filter (fun k => is_Some (heap (reclaim o s) !! k)) (registry_keys s).
Proof.
  intros Hwf. rewrite reclaim_heap by done. unfold reclaim.
  destruct (is_garbage s o).
  - rewrite dealloc_keys by done. apply filter_iff_in. intros k Hk.
    destruct (registry_key_alive s k Hwf Hk) as (ob & Hob & _).
    rewrite lookup_delete. case_decide as Hko.
    + subst. split; [done | by intros [? ?]].
    + rewrite Hob. split; [by eexists | congruence].
  - by rewrite registry_keys_alive.
Qed.

Lemma reclaim_all_spec l s :
  wf s ->
  (forall o, heap (foldr reclaim s l) !! o = heap s !! o \/
             heap (foldr reclaim s l) !! o = None) /\
  (forall o, o ∉ l -> heap (foldr reclaim s l) !! o = heap s !! o) /\
  (forall o, o ∈ owners s -> heap (foldr reclaim s l) !! o = heap s !! o) /\
  registry_keys (foldr reclaim s l)
  = filter (fun k => is_Some (heap (foldr reclaim s l) !! k)) (registry_keys s) /\
  next_id (foldr reclaim s l) = next_id s /\
  _typecodes (foldr reclaim s l) = _typecodes s /\
  owners (foldr reclaim s l) = owners s.
Proof.
  intros Hwf. induction l as [|x l IH]; cbn [foldr].
  { split_and!; try done; [by left | by rewrite registry_keys_alive]. }
  destruct IH as (IHh & IHout & IHown & IHkeys & IHid & IHc & IHo).
  pose proof (wf_reclaim_all l s Hwf) as Hwf'.
  set (r := foldr reclaim s l) in *.
  assert (Hheap : heap (reclaim x r)
                  = if is_garbage r x then delete x (heap r) else heap r)
    by by apply reclaim_heap.
  split_and!.
  - intros o. rewrite Hheap. destruct (is_garbage r x); [|apply IHh].
    rewrite lookup_delete. case_decide; [by right | apply IHh].
  - intros o [Hne Hnotin]%not_elem_of_cons. rewrite Hheap.
    destruct (is_garbage r x); [|by apply IHout].
    rewrite lookup_delete_ne by done. by apply IHout.
  - intros o Ho. rewrite Hheap. destruct (is_garbage r x) eqn:Hg; [|by apply IHown].
    apply is_garbage_true in Hg as (Hfree & _). rewrite IHo in Hfree.
    rewrite lookup_delete_ne by (intros ->; done). by apply IHown.
  - rewrite reclaim_keys by done. rewrite IHkeys, list_filter_filter.
    apply list_filter_iff. intros k. split; [tauto|]. intros Hk.
    split; [done|]. rewrite Hheap in Hk. destruct (is_garbage r x); [|done].
    destruct Hk as [ob Hk]. apply lookup_delete_Some in Hk as [_ Hk]. by eexists.
  - by rewrite reclaim_next_id.
  - by rewrite reclaim_typecodes.
  - by rewrite reclaim_owners.
Qed.

Lemma collect_spec s :
  wf s ->
  (forall o, heap (collect s) !! o = heap s !! o \/ heap (collect s) !! o = None) /\
  (forall o, o ∈ owners s -> heap (collect s) !! o = heap s !! o) /\
  registry_keys (collect s)
  = filter (fun k => is_Some (heap (collect s) !! k)) (registry_keys s) /\
  next_id (collect s) = next_id s /\ _typecodes (collect s) = _typecodes s /\
  owners (collect s) = owners s.
Proof.
  intros Hwf. unfold collect.
  destruct (reclaim_all_spec (seq 0 (next_id s)) s Hwf)
    as (Hh & _ & Hown & Hkeys & Hid & Hc & Ho).
  by split_and!.
Qed.

(** What the program holds stays, what it does not hold is gone after
    the pass. *)
Lemma reclaim_all_held l s :
  wf s -> forall o, held s o -> heap (foldr reclaim s l) !! o = heap s !! o.
Proof.
  intros Hwf. induction l as [|x l IH]; intros o Hheld; [done|]. cbn [foldr].
  destruct (reclaim_all_spec l s Hwf) as (_ & _ & _ & _ & _ & _ & Ho).
  pose proof (wf_reclaim_all l s Hwf) as Hwf'.
  set (r := foldr reclaim s l) in *.
  rewrite reclaim_heap by done.
  destruct (is_garbage r x) eqn:Hg; [|by apply IH].
  rewrite lookup_delete_ne; [by apply IH|]. intros ->.
  apply is_garbage_true in Hg as (Hfree & Href & _). rewrite Ho in Hfree.
  destruct Hheld as [o Hown | o o' ob' Hob' Hlt Hin Hheld']; [done|].
  assert (referenced r o = true) as Habs; [|congruence].
  apply referenced_true. exists o', ob'. split_and!; try done.
  by rewrite (IH o' Hheld').
Qed.

Lemma reclaim_seq_survivor n : forall (i : nat) s,
  wf s -> (next_id s <= i + n)%nat ->
  forall o, o ∈ seq i n -> is_Some (heap (foldr reclaim s (seq i n)) !! o) ->
  held s o.
Proof.
  induction n as [|n IH]; intros i s Hwf Hle o Hin Halive.
  { by apply elem_of_nil in Hin. }
  cbn [seq foldr] in *.
  destruct (reclaim_all_spec (seq (S i) n) s Hwf)
    as (Hh & _ & _ & _ & _ & _ & Ho).
  pose proof (wf_reclaim_all (seq (S i) n) s Hwf) as Hwf'.
  specialize (IH (S i) s Hwf ltac:(lia)).
  set (r := foldr reclaim s (seq (S i) n)) in *.
  rewrite reclaim_heap in Halive by done.
  apply elem_of_cons in Hin as [->|Hin].
  - destruct (is_garbage r i) eqn:Hg.
    { rewrite lookup_delete_eq in Halive. by destruct Halive. }
    destruct (decide (i ∈ owners s)) as [Hown|Hfree]; [by constructor|].
    destruct (referenced r i) eqn:Href.
    + apply referenced_true in Href as (o' & ob' & Hob' & Hlt & Hr).
      assert (heap s !! o' = Some ob') as Hs.
      { destruct (Hh o') as [Heq|Heq]; congruence. }
      pose proof (wf_fresh s Hwf o' ob' Hs) as Hfresh.
      apply (held_attr s i o' ob'); try done.
      apply IH; [apply elem_of_seq; lia | by eexists].
    + assert (is_garbage r i = true) as Habs; [|congruence].
      apply is_garbage_true. by rewrite Ho.
  - apply IH; [done|]. destruct (is_garbage r i); [|done].
    destruct Halive as [ob Hob]. apply lookup_delete_Some in Hob as [_ Hob].
    by eexists.
Qed.

Lemma unheld_no_owner s o : owners s = [] -> ~ held s o.
Proof.
  intros Hnil. induction 1 as [o Hown|]; [|done].
  rewrite Hnil in Hown. by apply elem_of_nil in Hown.
Qed.

Lemma collect_held s o :
  wf s -> held s o -> heap (collect s) !! o = heap s !! o.
Proof. intros Hwf. by apply reclaim_all_held. Qed.

Lemma collect_survivor s o :
  wf s -> is_Some (heap (collect s) !! o) -> held s o.
Proof.
  intros Hwf Halive.
  assert (Hlt : (o < next_id s)%nat).
  { destruct Halive as [ob Hob]. apply (wf_fresh s Hwf o ob).
    destruct (collect_spec s Hwf) as (Hh & _).
    destruct (Hh o) as [Heq|Heq]; congruence. }
  apply (reclaim_seq_survivor (next_id s) 0%nat s); [done | lia | | done].
  apply elem_of_seq. lia.
Qed.

Lemma collect_unheld s o :
  wf s -> ~ held s o -> heap (collect s) !! o = None.
Proof.
  intros Hwf Hnh. destruct (heap (collect s) !! o) as [ob|] eqn:Hob; [|done].
  destruct Hnh. apply collect_survivor; [done | by eexists].
Qed.

Lemma dealloc_frame o' s o :
  wf s ->
  heap (final_state (dealloc o' s)) !! o = heap s !! o \/
  heap (final_state (dealloc o' s)) !! o = None.
Proof.
  intros Hwf. rewrite dealloc_heap, lookup_delete by done.
  case_decide; auto.
Qed.

Lemma step_frame e s o :
  wf s -> (o < next_id s)%nat ->
  heap (step e s) !! o = heap s !! o \/ heap (step e s) !! o = None.
Proof.
  intros Hwf Hlt. destruct e as [c a|self idx|o'|o'|o'|]; cbn [step].
  - left. rewrite construct_heap. by apply call_frame.
  - rewrite getitem_unfold.
    destruct (_determine_array_spec idx) as [?|[ndim lay]]; [by left|].
    left. rewrite construct_heap. by apply call_frame.
  - left. by destruct (_ || _).
  - by left.
  - unfold reclaim. destruct (is_garbage s o'); [by apply dealloc_frame | by left].
  - destruct (collect_spec s Hwf) as (Hheap & _). apply Hheap.
Qed.

Lemma step_next_id e s : wf s -> (next_id s <= next_id (step e s))%nat.
Proof.
  intros Hwf. destruct e as [c a|self idx|o'|o'|o'|]; cbn [step].
  - rewrite construct_next_id. by apply call_next_id.
  - rewrite getitem_unfold.
    destruct (_determine_array_spec idx) as [?|[ndim lay]]; [done|].
    rewrite construct_next_id. by apply call_next_id.
  - by destruct (_ || _).
  - done.
  - by rewrite reclaim_next_id.
  - destruct (collect_spec s Hwf) as (_ & _ & _ & -> & _). done.
Qed.

Lemma step_typecodes e s : wf s -> _typecodes s <= _typecodes (step e s).
Proof.
  intros Hwf. destruct e as [c a|self idx|o'|o'|o'|]; cbn [step].
  - rewrite construct_typecodes. by apply call_typecodes.
  - rewrite getitem_unfold.
    destruct (_determine_array_spec idx) as [?|[ndim lay]]; [done|].
    rewrite construct_typecodes. by apply call_typecodes.
  - by destruct (_ || _).
  - done.
  - by rewrite reclaim_typecodes.
  - destruct (collect_spec s Hwf) as (_ & _ & _ & _ & -> & _). done.
Qed.

Lemma step_new_code e s o ob n :
  wf s -> heap (step e s) !! o = Some ob -> (next_id s <= o)%nat ->
  _code ob = Some n -> _typecodes s <= n.
Proof.
  intros Hwf Hob Hle Hn.
  assert (Hold : heap s !! o = Some ob -> _typecodes s <= n).
  { intros Hlt%(wf_fresh s Hwf). lia. }
  destruct e as [c a|self idx|o'|o'|o'|]; cbn [step] in Hob.
  - rewrite construct_heap in Hob.
    by rewrite (call_new_code c a s o ob n).
  - rewrite getitem_unfold in Hob.
    destruct (_determine_array_spec idx) as [?|[ndim lay]]; [by apply Hold|].
    rewrite construct_heap in Hob.
    by rewrite (call_new_code _ _ s o ob n Hwf Hob).
  - apply Hold. by destruct (_ || _).
  - by apply Hold.
  - unfold reclaim in Hob. destruct (is_garbage s o'); [|by apply Hold].
    rewrite dealloc_heap in Hob by done.
    apply lookup_delete_Some in Hob as [_ Hob]. by apply Hold.
  - destruct (collect_spec s Hwf) as (Hheap & _).
    destruct (Hheap o) as [Heq|Heq]; rewrite Heq in Hob; [by apply Hold | done].
Qed.

(** ** Along any run of the program *)

Lemma steps_next_id s s' : steps s s' -> wf s -> (next_id s <= next_id s')%nat.
Proof.
  induction 1 as [|s s' e Hsteps IH]; [done|]. intros Hwf.
  pose proof (step_next_id e s' (wf_steps _ _ Hsteps Hwf)).
  specialize (IH Hwf). lia.
Qed.

Lemma steps_typecodes s s' : steps s s' -> wf s -> _typecodes s <= _typecodes s'.
Proof.
  induction 1 as [|s s' e Hsteps IH]; [done|]. intros Hwf.
  pose proof (step_typecodes e s' (wf_steps _ _ Hsteps Hwf)).
  specialize (IH Hwf). lia.
Qed.

(** An instance keeps its attributes, code included, for as long as it
    is alive, and an identity is never given to a second instance. *)
Lemma steps_frame s s' o :
  steps s s' -> wf s -> (o < next_id s)%nat ->
  heap s' !! o = heap s !! o \/ heap s' !! o = None.
Proof.
  induction 1 as [|s s' e Hsteps IH]; [by left|]. intros Hwf Hlt.
  pose proof (wf_steps _ _ Hsteps Hwf) as Hwf'.
  pose proof (steps_next_id _ _ Hsteps Hwf) as Hid.
  destruct (step_frame e s' o Hwf') as [-> | ->]; [lia | by apply IH | by right].
Qed.

Lemma steps_new_code s s' o ob n :
  steps s s' -> wf s -> heap s' !! o = Some ob -> (next_id s <= o)%nat ->
  _code ob = Some n -> _typecodes s <= n.
Proof.
  induction 1 as [|s s' e Hsteps IH]; intros Hwf Hob Hle Hn.
  - apply (wf_fresh s Hwf) in Hob. lia.
  - pose proof (wf_steps _ _ Hsteps Hwf) as Hwf'.
    destruct (decide (o < next_id s')%nat) as [Hlt|Hge].
    + destruct (step_frame e s' o Hwf' Hlt) as [Heq | Heq];
        rewrite Heq in Hob; [|done]. by apply IH.
    + pose proof (steps_typecodes _ _ Hsteps Hwf).
      pose proof (step_new_code e s' o ob n Hwf' Hob ltac:(lia) Hn). lia.
Qed.

(** ** Indexing: rank and layout *)

Lemma sequence_array_spec_slices items :
  items <> [] -> forallb isinstance_slice items = true ->
  sequence_array_spec items =
  inr (length items,
       if from_option slice_step_one false (head items) then LayoutF
       else if from_option slice_step_one false (last items) then LayoutC
       else LayoutA).
Proof.
  intros Hne Hall. unfold sequence_array_spec, getitem_first, getitem_last.
  destruct items as [|x items]; [done|].
  assert (Hx : isinstance_slice x = true).
  { simpl in Hall. by apply andb_true_iff in Hall as [? _]. }
  destruct x as [| |st sp step| | | |]; try done. cbn [head from_option getattr_step slice_step_one].
  destruct (eq_one step); [done|].
  destruct (last (PySlice st sp step :: items)) as [y|] eqn:Hlast.
  2: { by apply last_None in Hlast. }
  assert (Hy : isinstance_slice y = true).
  { apply last_Some in Hlast as [l' Hl']. rewrite Hl' in Hall.
    rewrite forallb_app in Hall. simpl in Hall.
    apply andb_true_iff in Hall as [_ Hall]. by apply andb_true_iff in Hall as [? _]. }
  destruct y as [| |st' sp' step'| | | |]; try done. cbn.
  by destruct (eq_one step').
Qed.

(** ** How the registry answers a request *)

(** A request for a class and key the registry holds gives the
    registered instance; the provisional one is left unowned, without a
    code and outside the registry. *)
Lemma call_existing c a s k obk :
  wf s -> abstractmethods c = [] ->
  k ∈ registry_keys s -> heap s !! k = Some obk ->
  ob_cls obk = c -> key obk = init_key c a ->
  TypeMetaclass_call c a s = Return k (alloc c a s).
Proof.
  intros Hwf Habs Hk Hobk Hcls Hkey.
  destruct (call_cases c a s Hwf Habs)
    as [(k' & obk' & Hk' & Hobk' & Hcls' & Hkey' & ->) | [Hnone _]].
  - f_equal. apply (wf_unique s Hwf k' k obk' obk); try done.
    apply Type_eq_true. split; congruence.
  - by destruct (Hnone k obk Hk Hobk).
Qed.

(** A request nothing in the registry answers finalizes its own
    instance, with the code the counter shows. *)
Lemma call_fresh c a s :
  wf s -> abstractmethods c = [] ->
  (forall k obk, k ∈ registry_keys s -> heap s !! k = Some obk ->
                 ~ (ob_cls obk = c /\ key obk = init_key c a)) ->
  TypeMetaclass_call c a s =
    if _typecodes s <? 2 ^ 32
    then Return (next_id s) (finalized (next_id s) (alloc c a s))
    else Raise AssertionError (drawn (alloc c a s)).
Proof.
  intros Hwf Habs Hnone.
  destruct (call_cases c a s Hwf Habs)
    as [(k' & obk' & Hk' & Hobk' & Hcls' & Hkey' & _) | [_ ->]]; [|done].
  by destruct (Hnone k' obk' Hk' Hobk').
Qed.

(** What a successful request hands back. *)
Lemma call_result c a s o s' :
  wf s -> TypeMetaclass_call c a s = Return o s' ->
  abstractmethods c = [] /\
  exists ob, heap s' !! o = Some ob /\ ob_cls ob = c /\
             key ob = init_key c a /\
             _code ob = code_of s' o /\ is_Some (_code ob) /\
             o ∈ registry_keys s'.
Proof.
  intros Hwf Hcall.
  destruct (abstractmethods c) as [|m ms] eqn:Habs.
  2: { rewrite call_abstract in Hcall; [done | by rewrite Habs]. }
  split; [done|].
  destruct (call_Return c a s o s' Hwf Hcall) as (Hwf' & ob & Hob & Hc).
  exists ob. unfold code_of. rewrite Hob. split_and!; try done.
  - destruct (call_cases c a s Hwf Habs)
      as [(k & obk & Hk & Hobk & Hcls & Hkey & Heq) | [_ Heq]];
      rewrite Heq in Hcall.
    + injection Hcall as <- <-. rewrite alloc_lookup in Hob.
      case_decide; [apply (wf_fresh s Hwf) in Hobk; lia | congruence].
    + destruct (_typecodes s <? 2 ^ 32); [|done]. injection Hcall as <- <-.
      rewrite finalized_lookup, alloc_lookup, decide_True in Hob by done.
      cbn in Hob. rewrite decide_True in Hob by done.
      injection Hob as <-. cbn. apply new_obj_cls.
  - destruct (call_cases c a s Hwf Habs)
      as [(k & obk & Hk & Hobk & Hcls & Hkey & Heq) | [_ Heq]];
      rewrite Heq in Hcall.
    + injection Hcall as <- <-. rewrite alloc_lookup in Hob.
      case_decide; [apply (wf_fresh s Hwf) in Hobk; lia | congruence].
    + destruct (_typecodes s <? 2 ^ 32); [|done]. injection Hcall as <- <-.
      rewrite finalized_lookup, alloc_lookup, decide_True in Hob by done.
      cbn in Hob. rewrite decide_True in Hob by done.
      injection Hob as <-. change (key (with_code ?n ?x)) with (key x).
      apply new_obj_key.
  - by apply (wf_coded s' Hwf' o ob).
Qed.

Lemma steps_run es : forall s0 s, steps s0 s -> steps s0 (run es s).
Proof.
  induction es as [|e es IH]; intros s0 s Hs; [done|].
  apply (IH s0 (step e s)). by constructor.
Qed.

Lemma reachable_run es : reachable (run es init_state).
Proof.
  apply (reachable_steps init_state); [|constructor].
  apply steps_run. constructor.
Qed.

(** * The claims *)

(** C2.  For all type descriptors A and B: [A == B] holds exactly when A
    and B have the same class and equal keys; [A == B] implies
    [hash(A) == hash(B)]; descriptors of different classes are never
    equal, whatever their keys; and [A != B] is the negation of
    [A == B]. *)
Theorem Type_eq_protocol (A B : obj) :
  (Type_eq A B = true <-> ob_cls A = ob_cls B /\ key A = key B) /\
  (Type_eq A B = true -> Type_hash A = Type_hash B) /\
  (ob_cls A <> ob_cls B -> Type_eq A B = false) /\
  Type_ne A B = negb (Type_eq A B).
Proof.
  split_and!.
  - apply Type_eq_true.
  - intros [_ Hkey]%Type_eq_true. unfold Type_hash. by rewrite Hkey.
  - intros Hne. apply not_true_is_false. by intros [? _]%Type_eq_true.
  - done.
Qed.

(** C4.  In every state the program can reach, whatever constructions
    and reclamations led to it, no two instances that are alive carry
    the same code. *)
Theorem code_unique s o1 o2 n :
  reachable s -> code_of s o1 = Some n -> code_of s o2 = Some n -> o1 = o2.
Proof.
  intros Hwf%wf_reachable. unfold code_of.
  destruct (heap s !! o1) as [ob1|] eqn:H1; [|done].
  destruct (heap s !! o2) as [ob2|] eqn:H2; [|done].
  by apply (wf_code_inj s Hwf).
Qed.

(** C9, as amended.  In every reachable state, for every live instance
    T of a class that derives from IteratorType, whose [__init__] runs
    [IteratorType.__init__] and which inherits the [iterator_type]
    property, the property returns T itself and changes nothing,
    whatever the subclass hands to the inherited constructor and however
    else it is defined. *)
Theorem iterator_type_fixed_point s T ob :
  reachable s -> heap s !! T = Some ob ->
  subclass_IteratorType (ob_cls ob) = true ->
  runs_IteratorType_init (ob_cls ob) = true ->
  iterator_type_override (ob_cls ob) = None ->
  iterator_type T s = Return T s.
Proof.
  intros Hwf%wf_reachable Hob Hsub Hinit Hprop.
  unfold iterator_type, bind, get_obj. rewrite Hob, Hprop.
  by rewrite (wf_iter s Hwf T ob Hob), Hsub, Hinit.
Qed.

(** C10.  Indexing with a tuple whose first and last slices both have
    step 1 gives layout "F": the rule on the first slice wins. *)
Theorem first_slice_rule_wins self items x y s :
  head items = Some x -> last items = Some y ->
  slice_step_one x = true -> slice_step_one y = true ->
  _determine_array_spec (PyTuple items) = inr (length items, LayoutF) /\
  Type_getitem self (PyTuple items) s =
    TypeMetaclass_call Array (Array_args self (length items) LayoutF) s.
Proof.
  intros Hhead Hlast Hx Hy.
  assert (Hspec : _determine_array_spec (PyTuple items)
                  = inr (length items, LayoutF)).
  { destruct items as [|x' items]; [done|]. injection Hhead as ->.
    destruct x as [| |st sp step| | | |]; try done. cbn in *. by rewrite Hx. }
  split; [done|]. unfold Type_getitem. by rewrite Hspec.
Qed.

(** C6, as amended.  Indexing a type descriptor returns the interned
    Array type with this descriptor as dtype and with the following
    rank and layout: a single slice gives rank 1, layout "C" when its
    step is 1 and "A" otherwise; a non-empty tuple or list of slices
    gives the number of slices as rank, layout "F" when the first slice
    has step 1, else "C" when the last slice has step 1, else "A"; an
    index that is neither a slice, a tuple nor a list gives rank 1 and
    layout "A". *)
Theorem getitem_array_spec self idx ndim lay s :
  array_spec_rule idx = Some (ndim, lay) ->
  _determine_array_spec idx = inr (ndim, lay) /\
  Type_getitem self idx s =
    TypeMetaclass_call Array (Array_args self ndim lay) s /\
  (reachable s -> forall o s', Type_getitem self idx s = Return o s' ->
     exists ob, heap s' !! o = Some ob /\ ob_cls ob = Array /\
                key ob = init_key Array (Array_args self ndim lay) /\
                is_Some (_code ob) /\ o ∈ registry_keys s').
Proof.
  intros Hrule.
  assert (Hspec : _determine_array_spec idx = inr (ndim, lay)).
  { destruct idx as [| |st sp step|items|items| |]; cbn in Hrule |- *;
      try (by injection Hrule as <- <-).
    - injection Hrule as <- <-. by destruct (eq_one step).
    - destruct items as [|x items]; [done|].
      destruct (forallb _ _) eqn:Hall; [|done]. injection Hrule as <- <-.
      by rewrite sequence_array_spec_slices.
    - destruct items as [|x items]; [done|].
      destruct (forallb _ _) eqn:Hall; [|done]. injection Hrule as <- <-.
      by rewrite sequence_array_spec_slices. }
  assert (Hget : Type_getitem self idx s =
                 TypeMetaclass_call Array (Array_args self ndim lay) s).
  { unfold Type_getitem. by rewrite Hspec. }
  split_and!; try done.
  intros Hwf%wf_reachable o s'. rewrite Hget. intros Hcall.
  destruct (call_result _ _ _ _ _ Hwf Hcall)
    as (_ & ob & Hob & Hcls & Hkey & _ & Hcode & Hreg).
  by exists ob.
Qed.

(** C7.  Calling a live type descriptor with exactly one argument that
    is not a type descriptor delegates to the [cast_python_value] of its
    class on that argument; calling it with one or more type
    descriptors returns a signature whose return type is the descriptor
    itself and whose parameter types are the arguments, in order. *)
Theorem Type_call_dispatch s self ob :
  heap s !! self = Some ob ->
  (forall x, isinstance_Type x = false ->
     Type_call self [x] s = (let! v := cast_python_value self x in ret (inl v)) s /\
     Type_call self [x] s =
       match cast_override (ob_cls ob) with
       | None => Raise NotImplementedError s
       | Some f => match f x with
                   | inl e => Raise e s
                   | inr v => Return (inl v) s
                   end
       end) /\
  (forall xs, xs <> [] -> Forall (fun x => isinstance_Type x = true) xs ->
     exists sig, Type_call self xs s = Return (inr sig) s /\
                 return_type sig = PyType self /\ sig_args sig = xs).
Proof.
  intros Hob. split.
  - intros x Hx. unfold Type_call. rewrite Hx. cbn [negb]. split; [done|].
    unfold cast_python_value, bind, get_obj. rewrite Hob.
    destruct (cast_override (ob_cls ob)) as [f|]; [|done].
    by destruct (f x).
  - intros xs Hne Hall. exists (signature (PyType self) xs).
    split; [|done]. unfold Type_call.
    destruct xs as [|x [|x' xs]]; [done| |done].
    apply Forall_inv in Hall. by rewrite Hall.
Qed.

(** C1.  Whatever the class, when a construction has returned an
    instance and that instance is still owned, a later construction of
    the same class whose arguments give an equal key returns that very
    instance; the provisional instance built on the way is dropped: it
    differs from the one returned, carries no code, is not registered
    and has no owner, and neither the registry nor the counter moved.
    The instance returned is the canonical one the registry holds: it
    is a key of the registry, it is the unchanged object the first
    construction returned, of the class asked for, with the key both
    argument sets give, and it carries the code it had. *)
Theorem canonical_instance_returned c a a' s o s1 s2 :
  reachable s ->
  construct c a s = Return o s1 ->
  steps s1 s2 ->
  o ∈ owners s2 ->
  init_key c a' = init_key c a ->
  let inst := next_id s2 in
  let s3 := set_owners (o :: owners s2) (alloc c a' s2) in
  construct c a' s2 = Return o s3 /\
  inst <> o /\
  code_of s3 inst = None /\
  (inst ∉ registry_keys s3) /\
  (inst ∉ owners s3) /\
  _typecache s3 = _typecache s2 /\
  _typecodes s3 = _typecodes s2 /\
  o ∈ registry_keys s3 /\
  code_of s3 o = code_of s1 o /\
  exists ob, heap s1 !! o = Some ob /\ heap s3 !! o = Some ob /\
             ob_cls ob = c /\ key ob = init_key c a /\
             key ob = init_key c a' /\ is_Some (_code ob).
Proof.
  intros Hwf%wf_reachable Hcons Hsteps Hown Hkey.
  pose proof (wf_construct c a s Hwf) as Hwf1. rewrite Hcons in Hwf1.
  cbn [final_state] in Hwf1.
  pose proof (wf_steps _ _ Hsteps Hwf1) as Hwf2.
  rewrite construct_unfold in Hcons.
  destruct (TypeMetaclass_call c a s) as [o' s1'|] eqn:Hcall; [|done].
  injection Hcons as -> <-.
  destruct (call_result _ _ _ _ _ Hwf Hcall)
    as (Habs & ob & Hob & Hcls & Hkey1 & _ & Hcode & Hreg).
  destruct (wf_owned s2 Hwf2 o Hown) as (ob2 & Hob2 & Hcode2).
  assert (Hlt1 : (o < next_id s1')%nat).
  { apply (wf_fresh _ Hwf1 o ob). exact Hob. }
  assert (ob2 = ob) as ->.
  { destruct (steps_frame _ _ o Hsteps Hwf1 Hlt1) as [Heq|Heq].
    - rewrite Heq in Hob2. cbn in Hob2. congruence.
    - congruence. }
  pose proof (wf_coded s2 Hwf2 o ob Hob2 Hcode2) as Hreg2.
  pose proof (wf_fresh s2 Hwf2 o ob Hob2) as Hlt2.
  assert (Hcall2 : TypeMetaclass_call c a' s2 = Return o (alloc c a' s2)).
  { apply (call_existing c a' s2 o ob); try done. congruence. }
  cbn zeta. split_and!.
  - rewrite construct_unfold. by rewrite Hcall2.
  - lia.
  - unfold code_of. cbn. rewrite lookup_insert_eq. apply new_obj_code.
  - intros Hin. destruct (registry_key_alive s2 _ Hwf2 Hin) as (obk & Hobk & _).
    apply (wf_fresh s2 Hwf2) in Hobk. lia.
  - cbn. intros [Heq|Hin]%elem_of_cons; [lia|].
    destruct (wf_owned s2 Hwf2 _ Hin) as (obk & Hobk & _).
    apply (wf_fresh s2 Hwf2) in Hobk. lia.
  - done.
  - done.
  - done.
  - unfold code_of. cbn. rewrite lookup_insert_ne by lia. by rewrite Hob2, Hob.
  - exists ob. cbn. rewrite lookup_insert_ne by lia.
    split_and!; try done. congruence.
Qed.

Lemma code_of_frame s s' o :
  steps s s' -> wf s -> (o < next_id s)%nat -> is_Some (heap s' !! o) ->
  code_of s' o = code_of s o.
Proof.
  intros Hsteps Hwf Hlt [ob Hob]. unfold code_of.
  destruct (steps_frame _ _ o Hsteps Hwf Hlt) as [Heq|Heq]; [by rewrite Heq|].
  congruence.
Qed.

(** C3.  A construction that returns leaves the code of every instance
    that existed before it as it was, and from then on no instance
    present ever changes code.  When the provisional instance is the one
    returned, it had no code and was not registered before, and it
    carries the value drawn from the counter exactly when it is
    registered; every instance finalized later gets a strictly larger
    code.  When a registered instance is returned instead, the
    provisional instance has no code and never gets one. *)
Theorem code_assigned_once c a s o s1 :
  reachable s ->
  construct c a s = Return o s1 ->
  let inst := next_id s in
  (forall o', (o' < inst)%nat -> is_Some (heap s1 !! o') ->
     code_of s1 o' = code_of s o') /\
  (forall s2 o', steps s1 s2 -> (o' < next_id s1)%nat ->
     is_Some (heap s2 !! o') -> code_of s2 o' = code_of s1 o') /\
  (o = inst ->
     code_of s inst = None /\ (inst ∉ registry_keys s) /\
     code_of s1 inst = Some (_typecodes s) /\ inst ∈ registry_keys s1 /\
     forall s2 c' a' o' s3,
       steps s1 s2 -> construct c' a' s2 = Return o' s3 -> o' = next_id s2 ->
       exists n', code_of s3 o' = Some n' /\ _typecodes s < n') /\
  (o <> inst ->
     code_of s1 inst = None /\
     forall s2, steps s1 s2 -> code_of s2 inst = None).
Proof.
  intros Hwf%wf_reachable Hcons.
  pose proof (wf_construct c a s Hwf) as Hwf1. rewrite Hcons in Hwf1.
  cbn [final_state] in Hwf1.
  pose proof (construct_heap c a s) as Hheap. rewrite Hcons in Hheap.
  cbn [final_state] in Hheap.
  pose proof (construct_typecache c a s) as Hcache. rewrite Hcons in Hcache.
  cbn [final_state] in Hcache.
  rewrite construct_unfold in Hcons.
  destruct (TypeMetaclass_call c a s) as [o0 s1'|] eqn:Hcall; [|done].
  injection Hcons as -> Hs1. cbn [final_state] in Hheap, Hcache.
  destruct (call_result _ _ _ _ _ Hwf Hcall)
    as (Habs & ob & Hob & Hcls & Hkey1 & Hcodeof & Hcode & Hreg).
  assert (Hframe : forall o', (o' < next_id s)%nat -> heap s1 !! o' = heap s !! o').
  { intros o' Hlt. rewrite Hheap.
    pose proof (call_frame c a s o' Hwf Hlt) as Hfr. by rewrite Hcall in Hfr. }
  assert (Hinst_s : heap s !! next_id s = None).
  { destruct (heap s !! next_id s) as [ob'|] eqn:Hx; [|done].
    apply (wf_fresh s Hwf) in Hx. lia. }
  cbn zeta. split_and!.
  - intros o' Hlt _. unfold code_of. by rewrite Hframe.
  - intros s2 o' Hsteps Hlt Hsome. by apply code_of_frame.
  - intros ->.
    destruct (call_cases c a s Hwf Habs)
      as [(k & obk & Hk & Hobk & _ & _ & Heq) | [_ Heq]]; rewrite Heq in Hcall.
    { injection Hcall as Hk' _. apply (wf_fresh s Hwf) in Hobk. lia. }
    destruct (_typecodes s <? 2 ^ 32); [|done]. injection Hcall as <-.
    assert (Hc1 : code_of s1 (next_id s) = Some (_typecodes s)).
    { unfold code_of. rewrite Hheap, finalized_lookup, alloc_lookup.
      rewrite decide_True by done. cbn. by rewrite decide_True. }
    split_and!.
    + unfold code_of. by rewrite Hinst_s.
    + intros (obk & Hobk & _)%registry_key_alive; [|done]. congruence.
    + done.
    + unfold registry_keys. rewrite Hcache. cbn. rewrite map_app.
      apply elem_of_app. right. left.
    + intros s2 c' a' o' s3 Hsteps Hcons' ->.
      pose proof (wf_steps _ _ Hsteps Hwf1) as Hwf2.
      pose proof (construct_heap c' a' s2) as Hheap'. rewrite Hcons' in Hheap'.
      cbn [final_state] in Hheap'.
      rewrite construct_unfold in Hcons'.
      destruct (TypeMetaclass_call c' a' s2) as [o0 s3'|] eqn:Hcall'; [|done].
      injection Hcons' as -> Hs3. cbn [final_state] in Hheap'.
      destruct (call_result _ _ _ _ _ Hwf2 Hcall')
        as (_ & ob' & Hob' & _ & _ & _ & [n' Hn'] & _).
      exists n'. split.
      * unfold code_of. by rewrite Hheap', Hob'.
      * pose proof (call_new_code c' a' s2 (next_id s2) ob' n' Hwf2) as Hnew.
        rewrite Hcall' in Hnew. rewrite (Hnew Hob' ltac:(lia) Hn').
        pose proof (steps_typecodes _ _ Hsteps Hwf1) as Hmono.
        unfold code_of in Hc1.
        destruct (heap s1 !! next_id s) as [ob1|] eqn:Hob1; [|done].
        pose proof (wf_code_bound s1 Hwf1 _ _ _ Hob1 Hc1). lia.
  - intros Hne.
    destruct (call_cases c a s Hwf Habs)
      as [(k & obk & Hk & Hobk & _ & _ & Heq) | [_ Heq]]; rewrite Heq in Hcall.
    2: { destruct (_typecodes s <? 2 ^ 32); [|done]. by injection Hcall as ? _. }
    injection Hcall as -> <-.
    assert (Hc1 : code_of s1 (next_id s) = None).
    { unfold code_of. rewrite Hheap, alloc_lookup, decide_True by done.
      apply new_obj_code. }
    split; [done|]. intros s2 Hsteps.
    destruct (heap s2 !! next_id s) as [ob2|] eqn:Hob2.
    + rewrite <- Hc1. apply code_of_frame; try done.
      rewrite <- Hs1. cbn. lia.
    + unfold code_of. by rewrite Hob2.
Qed.

(** C8.  Once the program holds a registered instance no more, neither
    by a reference of its own nor through a descriptor it holds that
    keeps the instance in its attributes (an Array its dtype), a
    collection pass takes the instance away and purges its registry
    entry, so that the registry holds nothing for its class and key.
    Any later construction for that class and key that returns hands
    back another instance, one that did not exist beside the old one,
    with a strictly higher code; and such a construction does return as
    long as the counter is below its ceiling. *)
Theorem reclaimed_then_rebuilt s o ob n a' s2 :
  reachable s ->
  heap s !! o = Some ob -> _code ob = Some n ->
  ~ held s o ->
  init_key (ob_cls ob) a' = key ob ->
  steps (collect s) s2 ->
  heap (collect s) !! o = None /\
  (o ∉ registry_keys (collect s)) /\
  (forall k obk, k ∈ registry_keys (collect s) ->
     heap (collect s) !! k = Some obk ->
     ~ (ob_cls obk = ob_cls ob /\ key obk = key ob)) /\
  (forall o' s3, construct (ob_cls ob) a' s2 = Return o' s3 ->
     o' <> o /\ heap s !! o' = None /\
     exists n', code_of s3 o' = Some n' /\ n < n') /\
  (_typecodes s2 < 2 ^ 32 ->
     exists o' s3, construct (ob_cls ob) a' s2 = Return o' s3).
Proof.
  intros Hreach Hob Hn Hfree Hkey Hsteps.
  pose proof (wf_reachable s Hreach) as Hwf.
  destruct (collect_spec s Hwf) as (Hheap & _ & Hkeys & Hid & Hcodes & Hown).
  assert (Hwfc : wf (collect s)) by by apply wf_collect.
  pose proof (wf_steps _ _ Hsteps Hwfc) as Hwf2.
  assert (Hdead : heap (collect s) !! o = None).
  { by apply collect_unheld. }
  assert (Habs : abstractmethods (ob_cls ob) = []).
  { by apply (wf_concrete s Hwf o). }
  split_and!.
  - done.
  - intros (ob' & Hob' & _)%registry_key_alive; [|done]. congruence.
  - intros k obk. rewrite Hkeys.
    intros [_ Hk]%list_elem_of_filter Hobk' [Hc Hk'].
    assert (Hobk : heap s !! k = Some obk).
    { destruct (Hheap k) as [Heq|Heq]; congruence. }
    assert (k = o) as ->; [|congruence].
    apply (wf_unique s Hwf k o obk ob); try done.
    + apply (wf_coded s Hwf o ob); [done | by eexists].
    + by apply Type_eq_true.
  - intros o' s3 Hcons.
    pose proof (wf_construct (ob_cls ob) a' s2 Hwf2) as Hwf3.
    assert (Hsteps3 : steps s s3).
    { apply (steps_trans _ (collect s)).
      - apply (steps_step s s Collect), steps_refl.
      - replace s3 with (step (Construct (ob_cls ob) a') s2)
          by (cbn; by rewrite Hcons).
        by apply steps_step. }
    rewrite Hcons in Hwf3. cbn [final_state] in Hwf3.
    pose proof (construct_heap (ob_cls ob) a' s2) as Hheap3.
    rewrite Hcons in Hheap3. cbn [final_state] in Hheap3.
    rewrite construct_unfold in Hcons.
    destruct (TypeMetaclass_call (ob_cls ob) a' s2) as [o0 s3'|] eqn:Hcall; [|done].
    injection Hcons as -> Hs3. cbn [final_state] in Hheap3.
    destruct (call_result _ _ _ _ _ Hwf2 Hcall)
      as (_ & ob' & Hob' & Hcls' & Hkey' & _ & [n' Hn'] & _).
    rewrite <- Hheap3 in Hob'.
    pose proof (wf_fresh s Hwf o ob Hob) as Hlt.
    assert (Hne : o' <> o).
    { intros ->.
      destruct (steps_frame _ _ o Hsteps Hwfc ltac:(lia)) as [Heq|Heq].
      - pose proof (call_frame (ob_cls ob) a' s2 o Hwf2) as Hfr.
        rewrite Hcall in Hfr. cbn [final_state] in Hfr.
        pose proof (steps_next_id _ _ Hsteps Hwfc).
        rewrite Hheap3, Hfr, Heq, Hdead in Hob' by lia. done.
      - pose proof (call_frame (ob_cls ob) a' s2 o Hwf2) as Hfr.
        rewrite Hcall in Hfr. cbn [final_state] in Hfr.
        pose proof (steps_next_id _ _ Hsteps Hwfc).
        rewrite Hheap3, Hfr, Heq in Hob' by lia. done. }
    assert (Hnew : heap s !! o' = None).
    { destruct (heap s !! o') as [ob0|] eqn:Hob0; [|done]. exfalso.
      pose proof (wf_fresh s Hwf o' ob0 Hob0) as Hlt'.
      destruct (steps_frame _ _ o' Hsteps3 Hwf Hlt') as [Heq|Heq];
        rewrite Heq in Hob'; [|done].
      assert (ob0 = ob') as -> by congruence.
      apply Hne. apply (wf_unique s Hwf o' o ob' ob); try done.
      - apply (wf_coded s Hwf o' ob'); [done | by eexists].
      - apply (wf_coded s Hwf o ob); [done | by eexists].
      - apply Type_eq_true. split; congruence. }
    split_and!; try done.
    exists n'. split; [unfold code_of; by rewrite Hob'|].
    assert (Hge : (next_id s <= o')%nat).
    { destruct (decide (o' < next_id s)%nat) as [Hlt'|]; [|lia].
      destruct (steps_frame _ _ o' Hsteps3 Hwf Hlt') as [Heq|Heq];
        rewrite Heq in Hob'; congruence. }
    pose proof (steps_new_code _ _ o' ob' n' Hsteps3 Hwf Hob' Hge Hn').
    pose proof (wf_code_bound s Hwf o ob n Hob Hn). lia.
  - intros Hceil. rewrite construct_unfold.
    destruct (call_cases (ob_cls ob) a' s2 Hwf2 Habs)
      as [(k & obk & _ & _ & _ & _ & ->) | [_ ->]]; [by eauto|].
    apply N.ltb_lt in Hceil. rewrite Hceil. by eauto.
Qed.

(** ** Drawing codes up to the ceiling *)

Lemma construct_all_spec reqs : forall s i,
  wf s ->
  Forall (fun r => abstractmethods r.1 = []) reqs ->
  NoDup (requested reqs) ->
  (forall k obk, k ∈ registry_keys s -> heap s !! k = Some obk ->
     (ob_cls obk, key obk) ∉ requested reqs) ->
  (i < length reqs)%nat ->
  construct_all reqs s !! i =
  Some (if _typecodes s + N.of_nat i <? 2 ^ 32
        then inr (Some (_typecodes s + N.of_nat i))
        else inl AssertionError).
Proof.
  induction reqs as [|[c a] reqs IH]; intros s i Hwf Hconc Hnd Hnone Hi.
  { simpl in Hi. lia. }
  apply Forall_cons in Hconc as [Habs Hconc]. cbn in Habs.
  unfold requested in Hnd. cbn [map] in Hnd.
  apply NoDup_cons in Hnd as [Hhead Hnd]. cbn in Hhead.
  assert (Hfresh : TypeMetaclass_call c a s =
    if _typecodes s <? 2 ^ 32
    then Return (next_id s) (finalized (next_id s) (alloc c a s))
    else Raise AssertionError (drawn (alloc c a s))).
  { apply call_fresh; try done. intros k obk Hk Hobk [Hc Hkey].
    apply (Hnone k obk Hk Hobk). rewrite Hc, Hkey. left. }
  pose proof (wf_construct c a s Hwf) as Hwf'.
  cbn [construct_all]. rewrite construct_unfold in *. rewrite Hfresh in *.
  assert (Hold : forall k obk,
    heap (alloc c a s) !! k = Some obk -> k <> next_id s ->
    heap s !! k = Some obk).
  { intros k obk. rewrite alloc_lookup. by case_decide. }
  destruct (_typecodes s <? 2 ^ 32) eqn:Hlt; cbn [final_state] in *.
  - destruct i as [|i].
    + cbn. rewrite N.add_0_r, Hlt. do 3 f_equal.
      unfold code_of. cbn. rewrite lookup_with_code, lookup_insert_eq. cbn.
      by rewrite decide_True.
    + cbn [lookup list_lookup]. rewrite IH; try done.
      * cbn. replace (_typecodes s + 1 + N.of_nat i)
          with (_typecodes s + N.of_nat (S i)) by lia. done.
      * intros k obk. unfold registry_keys. cbn. rewrite map_app.
        rewrite elem_of_app, lookup_with_code.
        intros Hk (ob0 & Hob0 & ->)%fmap_Some.
        destruct (decide (next_id s = k)) as [<-|Hne].
        -- rewrite lookup_insert_eq in Hob0. injection Hob0 as <-.
           cbn. change (key (with_code ?n ?x)) with (key x).
           by rewrite new_obj_cls, new_obj_key.
        -- destruct Hk as [Hk | Hk%list_elem_of_singleton]; [|done].
           rewrite lookup_insert_ne in Hob0 by done.
           intros Hin. apply (Hnone k ob0 Hk Hob0). by right.
      * simpl in Hi. lia.
  - destruct i as [|i].
    + cbn. by rewrite N.add_0_r, Hlt.
    + cbn [lookup list_lookup]. rewrite IH; try done.
      * cbn. replace (_typecodes s + 1 + N.of_nat i)
          with (_typecodes s + N.of_nat (S i)) by lia. done.
      * intros k obk. change (registry_keys _) with (registry_keys s).
        intros Hk. destruct (registry_key_alive s k Hwf Hk) as (ob0 & Hob0 & _).
        cbn. rewrite lookup_insert_ne
          by (apply (wf_fresh s Hwf) in Hob0; lia).
        intros Hobk Hin. apply (Hnone k obk Hk Hobk). by right.
      * simpl in Hi. lia.
Qed.

(** C5.  Starting from a fresh interpreter, a caller asks for concrete
    descriptors with pairwise distinct class and key, one after the
    other.  The request number [i] (counting from 0) returns an
    instance carrying the code [i] as long as [i < 2^32], so the first
    2^32 requests succeed with codes that never wrap or repeat, and
    every request from number 2^32 on stops with an assertion
    failure. *)
Theorem ceiling_exact reqs i :
  Forall (fun r => abstractmethods r.1 = []) reqs ->
  NoDup (requested reqs) ->
  (i < length reqs)%nat ->
  construct_all reqs init_state !! i =
  Some (if N.of_nat i <? 2 ^ 32
        then inr (Some (N.of_nat i))
        else inl AssertionError).
Proof.
  intros Hconc Hnd Hi.
  rewrite (construct_all_spec reqs init_state i wf_init Hconc Hnd); [done| |done].
  intros k obk Hk. by apply elem_of_nil in Hk.
Qed.

End properties.

(** * Further properties of the code *)

Section further_properties.

Context {U : TypeUniverse}.

Implicit Types (s : state) (o k inst : nat) (ob : obj) (c : cls) (a : args).

(** ** The registry as a set of live, coded instances *)

(** X1.  In every reachable state the keys of the registry are exactly
    the live instances that carry a code, no key occurs twice, and
    every entry maps a weak reference to itself. *)
Theorem registry_holds_live_coded s :
  reachable s ->
  (forall o, o ∈ registry_keys s <-> exists n, code_of s o = Some n) /\
  NoDup (registry_keys s) /\
  (forall k v, (k, v) ∈ _typecache s -> v = k).
Proof.
  intros Hwf%wf_reachable. split_and!.
  - intros o. unfold code_of. split.
    + intros (ob & Hob & [n Hn])%registry_key_alive; [|done].
      exists n. by rewrite Hob.
    + intros [n Hn]. destruct (heap s !! o) as [ob|] eqn:Hob; [|done].
      apply (wf_coded s Hwf o ob); [done | by exists n].
  - apply (wf_nodup s Hwf).
  - intros k v Hin. by destruct (wf_entry s Hwf k v Hin).
Qed.

(** X2.  Among the live instances that carry a code, [==] is
    identity: two of them are equal exactly when they are the same
    instance. *)
Theorem registered_equal_iff_same s o1 o2 ob1 ob2 :
  reachable s ->
  heap s !! o1 = Some ob1 -> heap s !! o2 = Some ob2 ->
  is_Some (_code ob1) -> is_Some (_code ob2) ->
  Type_eq ob1 ob2 = true <-> o1 = o2.
Proof.
  intros Hwf%wf_reachable H1 H2 Hc1 Hc2. split.
  - intros Heq. apply (wf_unique s Hwf o1 o2 ob1 ob2); try done.
    + by apply (wf_coded s Hwf o1 ob1).
    + by apply (wf_coded s Hwf o2 ob2).
  - intros ->. assert (ob1 = ob2) as -> by congruence. apply Type_eq_refl.
Qed.

(** ** Codes over time *)

Lemma call_new_code_lt c a s o ob n :
  wf s -> heap (final_state (TypeMetaclass_call c a s)) !! o = Some ob ->
  (next_id s <= o)%nat -> _code ob = Some n -> n < 2 ^ 32.
Proof.
  intros Hwf. destruct (abstractmethods c) as [|m ms] eqn:Habs.
  2: { rewrite call_abstract; [|by rewrite Habs]. cbn.
       intros Hob%(wf_fresh s Hwf). lia. }
  rewrite call_unfold by done.
  assert (Hnew : forall ob', heap (alloc c a s) !! o = Some ob' ->
                 (next_id s <= o)%nat -> _code ob' = None).
  { intros ob'. rewrite alloc_lookup. case_decide.
    - intros [= <-] _. apply new_obj_code.
    - intros Hob%(wf_fresh s Hwf). lia. }
  destruct (dict_get _ _ _); [|destruct (_typecodes s <? 2 ^ 32) eqn:Hlt];
    unfold final_state.
  - intros Hob Hle Hn. rewrite (Hnew _ Hob Hle) in Hn. done.
  - rewrite finalized_lookup. intros (ob' & Hob & ->)%fmap_Some Hle.
    case_decide; cbn.
    + intros [= <-]. by apply N.ltb_lt.
    + intros Hn. by rewrite (Hnew _ Hob Hle) in Hn.
  - change (heap (drawn ?s)) with (heap s).
    intros Hob Hle Hn. rewrite (Hnew _ Hob Hle) in Hn. done.
Qed.

Lemma step_new_code_lt e s o ob n :
  wf s -> heap (step e s) !! o = Some ob -> (next_id s <= o)%nat ->
  _code ob = Some n -> n < 2 ^ 32.
Proof.
  intros Hwf Hob Hle Hn.
  assert (Hold : heap s !! o = Some ob -> n < 2 ^ 32).
  { intros Hlt%(wf_fresh s Hwf). lia. }
  destruct e as [c a|self idx|o'|o'|o'|]; cbn [step] in Hob.
  - rewrite construct_heap in Hob. by apply (call_new_code_lt c a s o ob n).
  - rewrite getitem_unfold in Hob.
    destruct (_determine_array_spec idx) as [?|[ndim lay]]; [by apply Hold|].
    rewrite construct_heap in Hob.
    by apply (call_new_code_lt _ _ s o ob n Hwf Hob).
  - apply Hold. by destruct (_ || _).
  - by apply Hold.
  - unfold reclaim in Hob. destruct (is_garbage s o'); [|by apply Hold].
    rewrite dealloc_heap in Hob by done.
    apply lookup_delete_Some in Hob as [_ Hob]. by apply Hold.
  - destruct (collect_spec s Hwf) as (Hheap & _).
    destruct (Hheap o) as [Heq|Heq]; rewrite Heq in Hob; [by apply Hold | done].
Qed.

(** X4.  Every code carried by an instance in a reachable state is
    below 2^32: the assertion of [_autoincr] keeps larger values out. *)
Theorem codes_below_ceiling s o n :
  reachable s -> code_of s o = Some n -> n < 2 ^ 32.
Proof.
  intros Hreach. revert o n.
  induction Hreach as [|e s Hreach IH]; intros o n; unfold code_of.
  { cbn. by rewrite lookup_empty. }
  pose proof (wf_reachable s Hreach) as Hwf.
  destruct (heap (step e s) !! o) as [ob|] eqn:Hob; [|done]. intros Hn.
  destruct (decide (o < next_id s)%nat) as [Hlt|Hge].
  - destruct (step_frame e s o Hwf Hlt) as [Heq|Heq];
      rewrite Heq in Hob; [|done].
    apply (IH o n). unfold code_of. by rewrite Hob.
  - apply (step_new_code_lt e s o ob n Hwf Hob); [lia | done].
Qed.

(** X5.  A code is never used again: if an instance carries the code
    [n] in some reachable state, then in every later state the only
    instance that can carry [n] is that same instance, also after it
    has been reclaimed and other instances have been built. *)
Theorem code_never_reused s s' o o' n :
  reachable s -> steps s s' ->
  code_of s o = Some n -> code_of s' o' = Some n -> o' = o.
Proof.
  intros Hwf%wf_reachable Hsteps. unfold code_of.
  destruct (heap s !! o) as [ob|] eqn:Hob; [|done]. intros Hn.
  destruct (heap s' !! o') as [ob'|] eqn:Hob'; [|done]. intros Hn'.
  pose proof (wf_code_bound s Hwf o ob n Hob Hn) as Hbound.
  destruct (decide (o' < next_id s)%nat) as [Hlt|Hge].
  - destruct (steps_frame s s' o' Hsteps Hwf Hlt) as [Heq|Heq];
      rewrite Heq in Hob'; [|done].
    by apply (wf_code_inj s Hwf o' o ob' ob n).
  - pose proof (steps_new_code s s' o' ob' n Hsteps Hwf Hob' ltac:(lia) Hn').
    lia.
Qed.

(** ** What a request gives back *)

Lemma construct_result c a s o s1 :
  wf s -> construct c a s = Return o s1 ->
  wf s1 /\ steps s s1 /\ o ∈ owners s1 /\
  exists ob, heap s1 !! o = Some ob /\ ob_cls ob = c /\
             key ob = init_key c a /\ is_Some (_code ob).
Proof.
  intros Hwf Hcons.
  pose proof (wf_construct c a s Hwf) as Hwf1. rewrite Hcons in Hwf1.
  assert (Hsteps : steps s s1).
  { replace s1 with (step (Construct c a) s) by (cbn; by rewrite Hcons).
    apply steps_step, steps_refl. }
  rewrite construct_unfold in Hcons.
  destruct (TypeMetaclass_call c a s) as [o0 s1'|] eqn:Hcall; [|done].
  injection Hcons as -> <-.
  destruct (call_result _ _ _ _ _ Hwf Hcall)
    as (_ & ob & Hob & Hcls & Hkey & _ & Hcode & _).
  split_and!; try done; [left | by exists ob].
Qed.

Lemma construct_fresh_obj c a s s1 :
  wf s -> construct c a s = Return (next_id s) s1 ->
  heap s1 !! next_id s = Some (with_code (_typecodes s) (new_obj c a (next_id s))).
Proof.
  intros Hwf Hcons.
  rewrite construct_unfold in Hcons.
  destruct (TypeMetaclass_call c a s) as [o0 s1'|] eqn:Hcall; [|done].
  injection Hcons as -> <-.
  destruct (call_result _ _ _ _ _ Hwf Hcall) as (Habs & _).
  destruct (call_cases c a s Hwf Habs)
    as [(k & obk & Hk & Hobk & _ & _ & Heq) | [_ Heq]]; rewrite Heq in Hcall.
  { injection Hcall as Hk' _. apply (wf_fresh s Hwf) in Hobk. lia. }
  destruct (_typecodes s <? 2 ^ 32); [|done]. injection Hcall as <-.
  cbn [heap set_owners]. rewrite finalized_lookup, alloc_lookup.
  rewrite decide_True by done. cbn. by rewrite decide_True.
Qed.

(** X6.  A construction that raises registers nothing and gives no
    reference to anyone; every instance that was alive stays as it was
    and no instance gains or changes a code.  When the failure is the
    assertion of [_autoincr], the counter had reached 2^32, its value
    is consumed all the same, and the provisional instance is left
    behind without a code; any other failure leaves the whole state
    untouched, and that is how a class with abstract methods left is
    refused, with [TypeError].  (Constructors are taken to accept their
    arguments and [post_init] to be the one of [Type].) *)
Theorem failed_construction_registers_nothing c a s e s' :
  reachable s -> construct c a s = Raise e s' ->
  _typecache s' = _typecache s /\ owners s' = owners s /\
  (forall o ob, heap s !! o = Some ob -> heap s' !! o = Some ob) /\
  (forall o, code_of s' o = code_of s o) /\
  (e = AssertionError ->
     2 ^ 32 <= _typecodes s /\ _typecodes s' = _typecodes s + 1 /\
     heap s' = <[next_id s := new_obj c a (next_id s)]> (heap s) /\
     (next_id s ∉ registry_keys s')) /\
  (e <> AssertionError -> s' = s) /\
  (abstractmethods c <> [] -> e = TypeError /\ s' = s).
Proof.
  intros Hwf%wf_reachable. rewrite construct_unfold.
  destruct (abstractmethods c) as [|m ms] eqn:Habs.
  2: { rewrite call_abstract by (by rewrite Habs). intros [= <- <-].
       split_and!; done. }
  destruct (call_cases c a s Hwf Habs)
    as [(k & obk & _ & _ & _ & _ & ->) | [_ ->]]; [done|].
  destruct (_typecodes s <? 2 ^ 32) eqn:Hlt; [done|]. intros [= <- <-].
  apply N.ltb_ge in Hlt. split_and!; try done.
  - intros o ob Hob. cbn. rewrite lookup_insert_ne; [done|].
    apply (wf_fresh s Hwf) in Hob. lia.
  - intros o. unfold code_of. cbn.
    destruct (decide (next_id s = o)) as [<-|Hne].
    + rewrite lookup_insert_eq, new_obj_code.
      destruct (heap s !! next_id s) as [ob|] eqn:Hob; [|done].
      apply (wf_fresh s Hwf) in Hob. lia.
    + by rewrite lookup_insert_ne.
  - intros _. split_and!; try done.
    change (registry_keys (drawn (alloc c a s))) with (registry_keys s).
    intros (ob & Hob & _)%registry_key_alive; [|done].
    apply (wf_fresh s Hwf) in Hob. lia.
Qed.

(** X7.  Requests that differ in class or in key never share an
    instance: whatever happens in between, the later request does not
    get the instance the earlier one got. *)
Theorem distinct_requests_distinct_instances c a c' a' s o s1 s2 o' s3 :
  reachable s ->
  construct c a s = Return o s1 -> steps s1 s2 ->
  construct c' a' s2 = Return o' s3 ->
  c <> c' \/ init_key c a <> init_key c' a' ->
  o' <> o.
Proof.
  intros Hwf%wf_reachable Hcons Hsteps Hcons' Hdiff ->.
  destruct (construct_result c a s o s1 Hwf Hcons)
    as (Hwf1 & _ & _ & ob & Hob & Hcls & Hkey & _).
  pose proof (wf_steps _ _ Hsteps Hwf1) as Hwf2.
  destruct (construct_result c' a' s2 o s3 Hwf2 Hcons')
    as (Hwf3 & Hsteps3 & _ & ob' & Hob' & Hcls' & Hkey' & _).
  pose proof (wf_fresh s1 Hwf1 o ob Hob) as Hlt.
  destruct (steps_frame s1 s3 o (steps_trans _ _ _ Hsteps Hsteps3) Hwf1 Hlt)
    as [Heq|Heq]; rewrite Heq in Hob'; [|done].
  assert (ob' = ob) as -> by congruence.
  destruct Hdiff as [Hc|Hk]; [apply Hc | apply Hk]; congruence.
Qed.

(** X8.  A request answered from the registry gets the instance with
    the attributes of the request that created it: its arguments, its
    name (what [repr] shows) and its [is_parametric] flag; the
    arguments of the later request leave no trace, even where they
    differ in something the key ignores, such as [param]. *)
Theorem creating_request_attributes_stay c a a' s o s1 s2 s3 :
  reachable s ->
  construct c a s = Return o s1 -> o = next_id s ->
  steps s1 s2 ->
  construct c a' s2 = Return o s3 ->
  exists ob, heap s3 !! o = Some ob /\
             ob_fields ob = a /\ Type_repr ob = init_name c a /\
             is_parametric ob = init_param c a /\
             _code ob = Some (_typecodes s).
Proof.
  intros Hwf%wf_reachable Hcons -> Hsteps Hcons'.
  pose proof (construct_fresh_obj c a s s1 Hwf Hcons) as Hob.
  destruct (construct_result c a s _ s1 Hwf Hcons) as (Hwf1 & _).
  pose proof (wf_steps _ _ Hsteps Hwf1) as Hwf2.
  destruct (construct_result c a' s2 _ s3 Hwf2 Hcons')
    as (_ & Hsteps3 & _ & ob' & Hob' & _).
  pose proof (wf_fresh s1 Hwf1 _ _ Hob) as Hlt.
  destruct (steps_frame s1 s3 _ (steps_trans _ _ _ Hsteps Hsteps3) Hwf1 Hlt)
    as [Heq|Heq]; rewrite Heq in Hob'; [|done].
  exists ob'. split; [by rewrite Heq|].
  assert (ob' = with_code (_typecodes s) (new_obj c a (next_id s))) as ->
    by congruence.
  cbn. unfold Type_repr. cbn.
  by rewrite new_obj_fields, new_obj_name; unfold new_obj;
    destruct (_ && _).
Qed.

(** ** Disposal *)

(** X9.  When an instance goes away, the callback removes the registry
    entry of that instance and no other: the remaining entries keep
    their order, every other instance stays as it was and the counter
    does not move.  For an instance without a code, such as a discarded
    duplicate, the registry is left exactly as it was, whatever equal
    instance it holds. *)
Theorem disposal_pops_own_entry_only s o :
  reachable s ->
  registry_keys (final_state (dealloc o s))
    = filter (fun k => k <> o) (registry_keys s) /\
  (code_of s o = None ->
     _typecache (final_state (dealloc o s)) = _typecache s) /\
  heap (final_state (dealloc o s)) = delete o (heap s) /\
  _typecodes (final_state (dealloc o s)) = _typecodes s.
Proof.
  intros Hwf%wf_reachable. split_and!.
  - by apply dealloc_keys.
  - intros Hnone. rewrite dealloc_state by done. cbn.
    apply filter_keep_all.
    intros (ob & Hob & [n Hn])%registry_key_alive; [|done].
    unfold code_of in Hnone. rewrite Hob in Hnone. congruence.
  - by apply dealloc_heap.
  - done.
Qed.

(** ** Indexing: when it fails and what it ignores *)

Lemma last_cons_is_Some {A} (x : A) (l : list A) : is_Some (last (x :: l)).
Proof.
  destruct (last (x :: l)) eqn:Hlast; [by eexists|].
  by apply last_None in Hlast.
Qed.




(** X11.  When indexing answers, the rank is the number of elements of
    the tuple or list, or 1 for any other index, and it is never 0. *)
Theorem rank_of_index idx ndim lay :
  _determine_array_spec idx = inr (ndim, lay) ->
  ndim = match sequence_items idx with
         | Some items => length items
         | None => 1%nat
         end /\
  (1 <= ndim)%nat.
Proof.
  assert (Hseq : forall items, sequence_array_spec items = inr (ndim, lay) ->
                 ndim = length items /\ (1 <= ndim)%nat).
  { intros items. unfold sequence_array_spec, getitem_first, getitem_last.
    destruct items as [|x items]; [done|].
    destruct (getattr_step x) as [?|step0]; [done|].
    destruct (eq_one step0).
    { intros [= <- _]. simpl. split; [done | lia]. }
    destruct (last (x :: items)) as [y|]; [|done].
    destruct (getattr_step y) as [?|step1]; [done|].
    destruct (eq_one step1); intros [= <- _]; simpl; split; (done || lia). }
  destruct idx as [| |st sp step|items|items| |]; cbn [_determine_array_spec sequence_items];
    try (intros [= <- _]; split; [done | lia]); try apply Hseq.
  destruct (eq_one step); intros [= <- _]; split; (done || lia).
Qed.

Lemma last_map_strip items :
  last (map strip_slice items) = strip_slice <$> last items.
Proof.
  induction items as [|x [|y items] IH]; [done..|].
  change (last (strip_slice x :: map strip_slice (y :: items))
          = strip_slice <$> last (y :: items)).
  by rewrite <- IH.
Qed.

Lemma getattr_step_strip x : getattr_step (strip_slice x) = getattr_step x.
Proof. by destruct x. Qed.

Lemma sequence_strip items :
  sequence_array_spec (map strip_slice items) = sequence_array_spec items.
Proof.
  unfold sequence_array_spec, getitem_first, getitem_last.
  rewrite last_map_strip, length_map.
  destruct items as [|x items]; [done|]. cbn [map head].
  destruct (last_cons_is_Some x items) as [y Hy]. rewrite Hy. cbn [fmap option_fmap option_map].
  by rewrite !getattr_step_strip.
Qed.

(** X12.  The [start] and [stop] of the slices play no role: an index
    and the same index with these bounds forgotten give the same rank
    and layout, or raise the same exception. *)
Theorem slice_bounds_ignored idx :
  _determine_array_spec (strip_bounds idx) = _determine_array_spec idx.
Proof.
  destruct idx as [| |st sp step|items|items| |]; try done;
    cbn [strip_bounds _determine_array_spec]; apply sequence_strip.
Qed.

(** X13.  A one-element tuple or list is not read like the slice it
    holds: a slice with step 1 alone gives layout "C", the same slice
    as the only element of a tuple or list gives layout "F". *)
Theorem one_element_sequence_differs x :
  slice_step_one x = true ->
  _determine_array_spec x = inr (1%nat, LayoutC) /\
  _determine_array_spec (PyTuple [x]) = inr (1%nat, LayoutF) /\
  _determine_array_spec (PyList [x]) = inr (1%nat, LayoutF).
Proof.
  destruct x as [| |st sp step| | | |]; try done. cbn. intros ->. done.
Qed.

(** ** Indexing twice *)

Lemma construct_hit c a a' s o s1 s2 :
  wf s -> construct c a s = Return o s1 -> steps s1 s2 ->
  o ∈ owners s2 -> init_key c a' = init_key c a ->
  construct c a' s2
  = Return o (set_owners (o :: owners s2) (alloc c a' s2)).
Proof.
  intros Hwf Hcons Hsteps Hown Hkey.
  destruct (construct_result c a s o s1 Hwf Hcons)
    as (Hwf1 & _ & _ & ob & Hob & Hcls & Hkey1 & _).
  pose proof (wf_steps _ _ Hsteps Hwf1) as Hwf2.
  destruct (wf_owned s2 Hwf2 o Hown) as (ob2 & Hob2 & Hcode2).
  pose proof (wf_fresh s1 Hwf1 o ob Hob) as Hlt.
  assert (ob2 = ob) as ->.
  { destruct (steps_frame _ _ o Hsteps Hwf1 Hlt) as [Heq|Heq]; congruence. }
  rewrite construct_unfold.
  rewrite (call_existing c a' s2 o ob); try done.
  - rewrite construct_unfold in Hcons.
    destruct (TypeMetaclass_call c a s) eqn:Hcall; [|done].
    by destruct (call_result _ _ _ _ _ Hwf Hcall).
  - by apply (wf_coded s2 Hwf2 o ob).
  - congruence.
Qed.

(** X14.  Two indexings of the same descriptor whose indexes give the
    same rank and layout return the same Array instance, as long as the
    first one is still owned; the second one draws no code and leaves
    the registry as it is. *)
Theorem same_spec_same_array self idx idx' s o s1 s2 :
  reachable s ->
  getitem self idx s = Return o s1 -> steps s1 s2 ->
  o ∈ owners s2 ->
  _determine_array_spec idx' = _determine_array_spec idx ->
  exists s3, getitem self idx' s2 = Return o s3 /\
             _typecodes s3 = _typecodes s2 /\
             _typecache s3 = _typecache s2.
Proof.
  intros Hwf%wf_reachable Hget Hsteps Hown Hspec.
  rewrite getitem_unfold in *. rewrite Hspec.
  destruct (_determine_array_spec idx) as [?|[ndim lay]]; [done|].
  eexists. split; [|split].
  - by apply (construct_hit Array (Array_args self ndim lay)
                 (Array_args self ndim lay) s o s1 s2).
  - done.
  - done.
Qed.

(** ** A collection pass *)

(** X15.  After a collection pass the instances alive are exactly
    those the program holds, by a reference of its own or through the
    attributes of a descriptor it holds (an Array keeps its dtype), and
    they are unchanged; the registry keeps, in order, the entries of
    these instances and nothing else, so every owned instance is still
    registered and nothing that went away is; owners and counter have
    not moved. *)
Theorem collection_keeps_held_only s :
  reachable s ->
  (forall o ob, heap (collect s) !! o = Some ob <->
                heap s !! o = Some ob /\ held s o) /\
  registry_keys (collect s)
    = filter (fun k => is_Some (heap (collect s) !! k)) (registry_keys s) /\
  (forall k, k ∈ registry_keys (collect s) <->
             k ∈ registry_keys s /\ held s k) /\
  (forall o, o ∈ owners s -> o ∈ registry_keys (collect s)) /\
  owners (collect s) = owners s /\
  _typecodes (collect s) = _typecodes s.
Proof.
  intros Hwf%wf_reachable.
  destruct (collect_spec s Hwf) as (Hheap & _ & Hkeys & _ & Hcodes & Hown).
  assert (Halive : forall o ob, heap (collect s) !! o = Some ob <->
                                heap s !! o = Some ob /\ held s o).
  { intros o ob. split.
    - intros Hob. split.
      + destruct (Hheap o) as [Heq|Heq]; congruence.
      + apply collect_survivor; [done | by eexists].
    - intros [Hob Hheld]. by rewrite collect_held. }
  assert (Hreg : forall k, k ∈ registry_keys (collect s) <->
                           k ∈ registry_keys s /\ held s k).
  { intros k. rewrite Hkeys, list_elem_of_filter. split.
    - intros [[ob Hob] Hk]. split; [done|]. by apply (Halive k ob).
    - intros [Hk Hheld]. split; [|done].
      destruct (registry_key_alive s k Hwf Hk) as (ob & Hob & _).
      exists ob. by apply Halive. }
  split_and!; try done.
  intros o Ho. apply Hreg. split; [|by constructor].
  destruct (wf_owned s Hwf o Ho) as (ob & Hob & Hc).
  by apply (wf_coded s Hwf o ob).
Qed.

(** ** Once the counter is used up *)

Lemma step_exhausted e s k :
  wf s -> 2 ^ 32 <= _typecodes s ->
  k ∈ registry_keys (step e s) -> k ∈ registry_keys s.
Proof.
  intros Hwf Hfull.
  assert (Hcons : forall c a,
    k ∈ registry_keys (final_state (construct c a s)) -> k ∈ registry_keys s).
  { intros c a. unfold registry_keys. rewrite construct_typecache.
    destruct (abstractmethods c) as [|m ms] eqn:Habs.
    2: { by rewrite call_abstract by (by rewrite Habs). }
    destruct (call_cases c a s Hwf Habs)
      as [(k' & obk & _ & _ & _ & _ & ->) | [_ ->]]; [done|].
    apply N.ltb_ge in Hfull. by rewrite Hfull. }
  destruct e as [c a|self idx|o'|o'|o'|]; cbn [step].
  - apply Hcons.
  - rewrite getitem_unfold.
    destruct (_determine_array_spec idx) as [?|[ndim lay]]; [done | apply Hcons].
  - by destruct (_ || _).
  - done.
  - unfold reclaim. destruct (is_garbage s o'); [|done].
    rewrite dealloc_keys by done. by intros [_ ?]%list_elem_of_filter.
  - destruct (collect_spec s Hwf) as (_ & _ & -> & _).
    by intros [_ ?]%list_elem_of_filter.
Qed.

Lemma steps_exhausted s t :
  steps s t -> wf s -> 2 ^ 32 <= _typecodes s ->
  forall k, k ∈ registry_keys t -> k ∈ registry_keys s.
Proof.
  induction 1 as [|s t e Hst IH]; [done|]. intros Hwf Hfull k Hk.
  apply (IH Hwf Hfull). apply (step_exhausted e t k); try done.
  - by apply (wf_steps s t).
  - pose proof (steps_typecodes s t Hst Hwf). lia.
Qed.

(** X16.  Exhaustion is permanent: once the counter has reached 2^32,
    the registry never gains an entry again, whatever is reclaimed in
    the meantime; a construction can only return an instance that was
    registered when the counter ran out, and the counter stays at or
    above 2^32. *)
Theorem exhaustion_is_permanent s s' :
  reachable s -> 2 ^ 32 <= _typecodes s -> steps s s' ->
  (forall k, k ∈ registry_keys s' -> k ∈ registry_keys s) /\
  (forall c a o s'', construct c a s' = Return o s'' -> o ∈ registry_keys s) /\
  2 ^ 32 <= _typecodes s'.
Proof.
  intros Hwf%wf_reachable Hfull Hsteps.
  assert (Hkeys : forall t, steps s t ->
            forall k, k ∈ registry_keys t -> k ∈ registry_keys s).
  { intros t Hst. by apply steps_exhausted. }
  split_and!.
  - by apply Hkeys.
  - intros c a o s'' Hcons.
    pose proof (wf_steps _ _ Hsteps Hwf) as Hwf'.
    destruct (construct_result c a s' o s'' Hwf' Hcons)
      as (Hwf'' & Hst & _ & ob & Hob & _ & _ & Hc).
    apply (Hkeys s'' (steps_trans _ _ _ Hsteps Hst)).
    by apply (wf_coded s'' Hwf'' o ob).
  - pose proof (steps_typecodes s s' Hsteps Hwf). lia.
Qed.

(** ** Building and dropping *)

Lemma unowned_fresh s : wf s -> next_id s ∉ owners s.
Proof.
  intros Hwf Hin. destruct (wf_owned s Hwf _ Hin) as (ob & Hob & _).
  apply (wf_fresh s Hwf) in Hob. lia.
Qed.

Lemma unregistered_fresh s : wf s -> next_id s ∉ registry_keys s.
Proof.
  intros Hwf Hin. destruct (registry_key_alive s _ Hwf Hin) as (ob & Hob & _).
  apply (wf_fresh s Hwf) in Hob. lia.
Qed.

Lemma unallocated_fresh s : wf s -> heap s !! next_id s = None.
Proof.
  intros Hwf. destruct (heap s !! next_id s) as [ob|] eqn:Hob; [|done].
  apply (wf_fresh s Hwf) in Hob. lia.
Qed.

(** X17.  Building a new descriptor, dropping it and letting it be
    freed is a round trip for the registry and the heap: both are
    exactly as before the construction.  What stays used is one code
    and one identity. *)
Theorem build_and_drop_round_trip c a s s1 :
  reachable s ->
  construct c a s = Return (next_id s) s1 ->
  run [Release (next_id s); Reclaim (next_id s)] s1
  = set_next_id (S (next_id s)) (drawn s).
Proof.
  intros Hwf%wf_reachable Hcons.
  pose proof (wf_construct c a s Hwf) as Hwf1. rewrite Hcons in Hwf1.
  cbn [final_state] in Hwf1.
  rewrite construct_unfold in Hcons.
  destruct (TypeMetaclass_call c a s) as [o0 s1'|] eqn:Hcall; [|done].
  injection Hcons as -> <-.
  destruct (call_result _ _ _ _ _ Hwf Hcall) as (Habs & _).
  destruct (call_cases c a s Hwf Habs)
    as [(k & obk & Hk & Hobk & _ & _ & Heq) | [_ Heq]]; rewrite Heq in Hcall.
  { injection Hcall as Hk' _. apply (wf_fresh s Hwf) in Hobk. lia. }
  destruct (_typecodes s <? 2 ^ 32); [|done]. injection Hcall as <-.
  set (inst := next_id s) in *.
  pose proof (unowned_fresh s Hwf) as Hfree.
  pose proof (unallocated_fresh s Hwf) as Hnone.
  pose proof (wf_nodup _ Hwf1) as Hnd.
  unfold run. cbn [foldl step].
  change (owners (set_owners (inst :: owners (finalized inst (alloc c a s)))
                             (finalized inst (alloc c a s))))
    with (inst :: owners s).
  cbn [remove_one]. rewrite bool_decide_eq_true_2 by done.
  assert (Hg : is_garbage
    (set_owners (owners s)
       (set_owners (inst :: owners (finalized inst (alloc c a s)))
                   (finalized inst (alloc c a s)))) inst = true).
  { apply is_garbage_true. split_and!.
    - done.
    - apply (referenced_youngest
        (set_owners (inst :: owners (finalized inst (alloc c a s)))
                    (finalized inst (alloc c a s)))); [done | cbn; lia].
    - cbn [heap set_owners]. rewrite finalized_lookup, alloc_lookup.
      rewrite decide_True by done. by eexists. }
  unfold reclaim. rewrite Hg.
  unfold dealloc, _on_type_disposal, bind, modify, weakref_ref.
  cbn [final_state].
  unfold set_typecache, set_heap, set_next_id, drawn, set_typecodes. cbn.
  fold inst.
  assert (Hdel : delete inst (alter (with_code (_typecodes s)) inst
                   (<[inst := new_obj c a inst]> (heap s))) = heap s).
  { by rewrite delete_alter_eq, delete_insert_id. }
  rewrite Hdel. f_equal.
  rewrite dict_pop_dead; [|done|].
  - rewrite filter_app, filter_keep_all by apply (unregistered_fresh s Hwf).
    rewrite filter_cons_False by (simpl; tauto). apply app_nil_r.
  - unfold registry_keys in Hnd. cbn in Hnd. exact Hnd.
Qed.

(** X18.  A request answered from the registry leaves no trace once
    its result is dropped and its provisional instance is freed: heap,
    registry, owners and counter are as before the request, and only
    an identity has been used. *)
Theorem duplicate_request_round_trip c a s o s1 :
  reachable s ->
  construct c a s = Return o s1 -> o <> next_id s ->
  run [Release o; Reclaim (next_id s)] s1 = set_next_id (S (next_id s)) s.
Proof.
  intros Hwf%wf_reachable Hcons Hne.
  rewrite construct_unfold in Hcons.
  destruct (TypeMetaclass_call c a s) as [o0 s1'|] eqn:Hcall; [|done].
  injection Hcons as -> <-.
  destruct (call_result _ _ _ _ _ Hwf Hcall) as (Habs & _).
  destruct (call_cases c a s Hwf Habs)
    as [(k & obk & Hk & Hobk & _ & _ & Heq) | [_ Heq]]; rewrite Heq in Hcall.
  2: { destruct (_typecodes s <? 2 ^ 32); [|done]. by injection Hcall as ? _. }
  injection Hcall as -> <-.
  set (inst := next_id s) in *.
  pose proof (unowned_fresh s Hwf) as Hfree.
  pose proof (unallocated_fresh s Hwf) as Hnone.
  unfold run. cbn [foldl step].
  change (owners (set_owners (o :: owners (alloc c a s)) (alloc c a s)))
    with (o :: owners s).
  cbn [remove_one]. rewrite bool_decide_eq_true_2 by done.
  assert (Hg : is_garbage
    (set_owners (owners s)
       (set_owners (o :: owners (alloc c a s)) (alloc c a s))) inst = true).
  { apply is_garbage_true. split_and!.
    - done.
    - apply (referenced_youngest (alloc c a s)); [|cbn; lia].
      pose proof (call_Return c a s o (alloc c a s) Hwf Heq) as (Hwfa & _).
      exact Hwfa.
    - cbn [heap set_owners]. rewrite alloc_lookup.
      rewrite decide_True by done. by eexists. }
  unfold reclaim. rewrite Hg.
  unfold dealloc, _on_type_disposal, bind, modify, weakref_ref.
  cbn [final_state].
  unfold set_typecache, set_heap, set_next_id. cbn. fold inst.
  rewrite delete_insert_id by done. f_equal.
  rewrite dict_pop_dead; [|done | apply (wf_nodup s Hwf)].
  apply filter_keep_all, (unregistered_fresh s Hwf).
Qed.

(** ** Instances do not change *)

(** X19.  As far as this module goes, an instance is never modified
    once the construction that built it has returned: in any later
    state in which it is alive it has the same attributes, hence the
    same key and hash, and the same code. *)
Theorem instance_never_modified s s' o ob ob' :
  reachable s -> steps s s' ->
  heap s !! o = Some ob -> heap s' !! o = Some ob' ->
  ob' = ob /\ key ob' = key ob /\ Type_hash ob' = Type_hash ob.
Proof.
  intros Hwf%wf_reachable Hsteps Hob Hob'.
  pose proof (wf_fresh s Hwf o ob Hob) as Hlt.
  destruct (steps_frame s s' o Hsteps Hwf Hlt) as [Heq|Heq];
    rewrite Heq in Hob'; [|done].
  assert (ob' = ob) as -> by congruence. done.
Qed.

(** ** Calling a descriptor *)

(** X20.  Calling a descriptor builds a signature, with the descriptor
    as return type and all arguments as parameters, for every argument
    list that is not a single non-descriptor value: the empty list,
    a single descriptor, and lists of two or more values of any kind.
    Whatever the arguments, the call leaves heap, registry and counter
    as they are. *)
Theorem Type_call_signature_cases self xs s :
  (length xs <> 1%nat \/ Forall (fun x => isinstance_Type x = true) xs ->
   Type_call self xs s = Return (inr (signature (PyType self) xs)) s) /\
  final_state (Type_call self xs s) = s.
Proof.
  split.
  - intros Hcase. unfold Type_call.
    destruct xs as [|x [|x' xs]]; [done| |done].
    destruct Hcase as [Hlen|Hall]; [done|].
    apply Forall_inv in Hall. by rewrite Hall.
  - unfold Type_call. destruct xs as [|x [|x' xs]]; [done| |done].
    destruct (isinstance_Type x); [done|]. cbn [negb].
    unfold cast_python_value, bind, get_obj.
    destruct (heap s !! self) as [ob|]; [|done].
    destruct (cast_override (ob_cls ob)) as [f|]; [|done].
    by destruct (f x).
Qed.

End further_properties.

(** The reading of C6 that treats a list as "any other index shape"
    fails on a list of two slices, where the code counts the slices
    and looks at their steps; and a tuple of integers, which is not a
    tuple of slices either, raises instead of giving rank 1. *)
Lemma stated_array_spec_fails :
  let sl step := PySlice PyNone PyNone (PyInt step) in
  _determine_array_spec (PyList [sl 1%Z; sl 2%Z])
    <> inr (stated_array_spec (PyList [sl 1%Z; sl 2%Z])) /\
  _determine_array_spec (PyTuple [PyInt 1; PyInt 2])
    <> inr (stated_array_spec (PyTuple [PyInt 1; PyInt 2])).
Proof. split; discriminate. Qed.

(** C9 as stated, for subclasses defined in any way, fails on two of
    them: on an instance of a subclass whose [__init__] does not go
    through [IteratorType.__init__] the property raises AttributeError,
    [_iterator_type] never having been set; and a subclass that defines
    the property itself returns what that definition says, here another
    descriptor. *)
Lemma stated_fixed_point_fails :
  @reachable odd odd_held /\
  (exists ob, heap odd_held !! 0%nat = Some ob /\
              subclass_IteratorType (ob_cls ob) = true /\
              @iterator_type odd 0%nat odd_held <> Return 0%nat odd_held /\
              @iterator_type odd 0%nat odd_held = Raise AttributeError odd_held) /\
  (exists ob, heap odd_held !! 1%nat = Some ob /\
              subclass_IteratorType (ob_cls ob) = true /\
              @iterator_type odd 1%nat odd_held <> Return 1%nat odd_held /\
              @iterator_type odd 1%nat odd_held = Return 0%nat odd_held).
Proof.
  split; [apply reachable_run|]. split.
  - eexists. split; [vm_compute; reflexivity|]. split; [reflexivity|].
    split; [|vm_compute; reflexivity]. vm_compute. discriminate.
  - eexists. split; [vm_compute; reflexivity|]. split; [reflexivity|].
    split; [|vm_compute; reflexivity]. vm_compute. discriminate.
Qed.

(** * The claims on the small universe *)

#[local] Existing Instance demo.

Lemma canonical_instance_returned_demo :
  @construct demo Integer (Named "int32") demo_busy
  = Return 0%nat (set_owners (0%nat :: owners demo_busy)
                             (alloc Integer (Named "int32") demo_busy)).
Proof.
  apply (canonical_instance_returned (U:=demo) Integer (Named "int32")
           (Named "int32") init_state 0%nat demo_held demo_busy).
  - apply reachable_init.
  - vm_compute. reflexivity.
  - apply steps_run, steps_refl.
  - compute_done.
  - reflexivity.
Defined.

Lemma Type_eq_protocol_demo :
  @Type_eq demo (new_obj Integer (Named "int32") 0%nat)
                (new_obj Float (Named "int32") 1%nat) = false.
Proof.
  apply (Type_eq_protocol (U:=demo)). discriminate.
Defined.

Lemma code_assigned_once_demo :
  @code_of demo demo_again 1%nat = None.
Proof.
  assert (Hreach : reachable demo_held) by apply reachable_run.
  assert (Hcons : @construct demo Integer (Named "int32") demo_held
                  = Return 0%nat demo_again) by (vm_compute; reflexivity).
  destruct (code_assigned_once (U:=demo) Integer (Named "int32") demo_held
              0%nat demo_again Hreach Hcons) as (_ & _ & _ & Hdup).
  assert (Hne : 0%nat <> next_id demo_held) by (vm_compute; lia).
  destruct (Hdup Hne) as [Hnone _]. exact Hnone.
Defined.

Lemma code_unique_demo :
  @code_of demo demo_iter 2%nat = Some 2 /\ 2%nat = 2%nat.
Proof.
  assert (H : @code_of demo demo_iter 2%nat = Some 2) by (vm_compute; reflexivity).
  split; [exact H|].
  apply (code_unique (U:=demo) demo_iter 2%nat 2%nat 2); [apply reachable_run | exact H | exact H].
Defined.

Lemma ceiling_exact_demo :
  @construct_all demo demo_requests init_state !! 3%nat = Some (inr (Some 3)).
Proof.
  apply (ceiling_exact (U:=demo) demo_requests 3%nat).
  - repeat constructor.
  - compute_done.
  - vm_compute. lia.
Defined.

Lemma getitem_array_spec_demo :
  _determine_array_spec (PyTuple [demo_slice 2; demo_slice 1])
  = inr (2%nat, LayoutC).
Proof.
  apply (getitem_array_spec (U:=demo) 0%nat _ 2%nat LayoutC init_state).
  reflexivity.
Defined.

Lemma Type_call_dispatch_demo :
  exists sig, @Type_call demo 0%nat [PyType 0%nat; PyType 0%nat] demo_held
              = Return (inr sig) demo_held /\
              return_type sig = PyType 0%nat /\
              sig_args sig = [PyType 0%nat; PyType 0%nat].
Proof.
  refine (proj2 (Type_call_dispatch (U:=demo) demo_held 0%nat
                   (with_code 0 (new_obj Integer (Named "int32") 0%nat)) _)
                [PyType 0%nat; PyType 0%nat] _ _).
  - vm_compute. reflexivity.
  - discriminate.
  - repeat constructor.
Defined.

Lemma reclaimed_then_rebuilt_demo :
  heap (@collect demo demo_dropped) !! 0%nat = None.
Proof.
  apply (reclaimed_then_rebuilt (U:=demo) demo_dropped 0%nat
           (with_code 0 (@new_obj demo Integer (Named "int32") 0%nat)) 0
           (Named "int32") (collect demo_dropped)).
  - apply reachable_run.
  - vm_compute. reflexivity.
  - reflexivity.
  - apply unheld_no_owner. reflexivity.
  - reflexivity.
  - apply steps_refl.
Defined.

Lemma iterator_type_fixed_point_demo :
  @iterator_type demo 0%nat demo_iter = Return 0%nat demo_iter.
Proof.
  apply (iterator_type_fixed_point (U:=demo) demo_iter 0%nat
           (with_code 0 (@new_obj demo RangeIterator (Named "range_iter") 0%nat))).
  - apply reachable_run.
  - vm_compute. reflexivity.
  - reflexivity.
  - reflexivity.
  - reflexivity.
Defined.

Lemma first_slice_rule_wins_demo :
  _determine_array_spec (PyTuple [demo_slice 1; demo_slice 3; demo_slice 1])
  = inr (3%nat, LayoutF).
Proof.
  apply (first_slice_rule_wins (U:=demo) 0%nat
           [demo_slice 1; demo_slice 3; demo_slice 1]
           (demo_slice 1) (demo_slice 1) init_state); reflexivity.
Defined.

(** * The scenarios of the specification, run on the small universe *)

Example indexing_scenarios :
  _determine_array_spec (demo_slice 1) = inr (1%nat, LayoutC) /\
  _determine_array_spec (PyTuple [demo_slice 1; demo_slice 2]) = inr (2%nat, LayoutF) /\
  _determine_array_spec (PyTuple [demo_slice 2; demo_slice 1]) = inr (2%nat, LayoutC) /\
  _determine_array_spec (PyTuple [demo_slice 2; demo_slice 3]) = inr (2%nat, LayoutA) /\
  _determine_array_spec (PySlice PyNone PyNone PyNone) = inr (1%nat, LayoutA) /\
  _determine_array_spec (PyInt 3) = inr (1%nat, LayoutA).
Proof. repeat split. Qed.

Example indexing_unguarded_inputs :
  _determine_array_spec (PyTuple []) = inl IndexError /\
  _determine_array_spec (PyTuple [PyInt 1; PyInt 2]) = inl AttributeError /\
  _determine_array_spec (PyTuple [demo_slice 2; PyInt 1]) = inl AttributeError.
Proof. repeat split. Qed.

Example int32_requested_twice :
  @construct demo Integer (Named "int32") init_state = Return 0%nat demo_held /\
  @construct demo Integer (Named "int32") demo_held = Return 0%nat demo_again /\
  code_of demo_held 0%nat = Some 0 /\ code_of demo_again 0%nat = Some 0 /\
  _typecodes demo_again = 1.
Proof. repeat split; vm_compute; reflexivity. Qed.

Example abstract_variant_refused :
  @construct demo Function (Named "f") init_state = Raise TypeError init_state.
Proof. reflexivity. Qed.

Example released_then_requested_again :
  let s := collect demo_released in
  heap s = ∅ /\ _typecache s = [] /\
  exists s', @construct demo Float (Named "float64") s = Return 1%nat s' /\
             code_of s' 1%nat = Some 1.
Proof.
  repeat split; try (vm_compute; reflexivity).
  eexists. split; vm_compute; reflexivity.
Qed.

(** An Array keeps its dtype: with [int32[::1]] held and [int32] let go
    of, a collection pass frees nothing, and asking for [int32] again
    gives the instance of before, with its code. *)
Example dtype_kept_by_array :
  held demo_kept 0%nat /\ (0%nat ∉ owners demo_kept) /\
  collect demo_kept = demo_kept /\
  exists s', @construct demo Integer (Named "int32") demo_kept
             = Return 0%nat s' /\
             code_of s' 0%nat = Some 0 /\ _typecodes s' = _typecodes demo_kept.
Proof.
  split_and!.
  - apply (held_attr demo_kept 0%nat 1%nat
             (with_code 1 (@new_obj demo ArrayT (ArrayOf 0%nat 1%nat LayoutC) 1%nat))).
    + vm_compute. reflexivity.
    + lia.
    + compute_done.
    + apply held_owner. compute_done.
  - compute_done.
  - vm_compute. reflexivity.
  - eexists. split_and!; vm_compute; reflexivity.
Qed.

(** The dtype can be taken back from the Array that is held. *)
Example dtype_read_from_array :
  owners (step (Hold 0%nat) demo_kept) = [0%nat; 1%nat] /\
  owners (step (Hold 0%nat) demo_dropped) = [].
Proof. split; vm_compute; reflexivity. Qed.

(** Once the Array is let go of as well, the same pass frees both. *)
Example array_and_dtype_dropped :
  heap (collect demo_dropped) = ∅ /\ _typecache (collect demo_dropped) = [].
Proof. split; vm_compute; reflexivity. Qed.

(** Only the [step] attribute of the elements is asked for:
    [(range(3), 7)] is read like a tuple of slices. *)
Example indexing_reads_step_only :
  _determine_array_spec (PyTuple [PyObject (Some (PyInt 1)); PyInt 7])
  = inr (2%nat, LayoutF) /\
  _determine_array_spec (PyTuple [PyObject None; demo_slice 1])
  = inl AttributeError.
Proof. split; reflexivity. Qed.

(** * The further properties on the small universes *)

Lemma wf_demo_idle n : wf (demo_idle n).
Proof.
  constructor; cbn; try (intros; simplify_map_eq; fail).
  - intros ?? Hin. by apply elem_of_nil in Hin.
  - constructor.
  - intros ? Hin. by apply elem_of_nil in Hin.
Qed.

(** One round of building and freeing, below the ceiling. *)
Lemma demo_round n :
  N.of_nat n < 2 ^ 32 ->
  run [@Construct demo Integer (Named "int32"); Release n; Reclaim n]
      (demo_idle n) = demo_idle (S n).
Proof.
  intros Hlt.
  pose proof (wf_demo_idle n) as Hwf.
  assert (Hcall : @TypeMetaclass_call demo Integer (Named "int32") (demo_idle n)
    = Return n (finalized n (alloc Integer (Named "int32") (demo_idle n)))).
  { rewrite call_fresh; [| done | done | ].
    - change (_typecodes (demo_idle n)) with (N.of_nat n).
      apply N.ltb_lt in Hlt. by rewrite Hlt.
    - intros k obk Hk. by apply elem_of_nil in Hk. }
  pose proof (wf_construct Integer (Named "int32") (demo_idle n) Hwf) as Hwf1.
  rewrite construct_unfold, Hcall in Hwf1. cbn [final_state] in Hwf1.
  unfold run. cbn [foldl step].
  rewrite construct_unfold, Hcall. cbn [final_state].
  set (s1 := finalized n (@alloc demo Integer (Named "int32") (demo_idle n))).
  assert (Hheap1 : heap s1 !! n = Some (with_code (N.of_nat n)
                      (@new_obj demo Integer (Named "int32") n))).
  { subst s1. rewrite finalized_lookup, alloc_lookup.
    change (next_id (demo_idle n)) with n. rewrite decide_True by done.
    cbn [fmap option_fmap option_map]. by rewrite decide_True. }
  assert (Hdel : delete n (heap s1) = ∅).
  { apply map_eq. intros i. rewrite lookup_delete, lookup_empty.
    case_decide; [done|]. subst s1. rewrite finalized_lookup, alloc_lookup.
    change (next_id (demo_idle n)) with n. rewrite decide_False by done.
    change (heap (demo_idle n)) with (∅ : gmap nat (@obj demo)).
    by rewrite lookup_empty. }
  change (owners (set_owners (n :: owners s1) s1)) with (n :: owners s1).
  change (owners s1) with (@nil nat).
  cbn [remove_one]. rewrite bool_decide_eq_true_2 by done.
  assert (Hg : is_garbage (set_owners [] (set_owners [n] s1)) n = true).
  { apply is_garbage_true. split_and!.
    - apply not_elem_of_nil.
    - apply (referenced_youngest _ n Hwf1). cbn. lia.
    - change (heap (set_owners [] (set_owners [n] s1))) with (heap s1).
      rewrite Hheap1. by eexists. }
  unfold reclaim. rewrite Hg.
  unfold dealloc, _on_type_disposal, bind, modify, weakref_ref.
  cbn [final_state].
  change (heap (set_heap (delete n) (set_owners [] (set_owners [n] s1))))
    with (delete n (heap s1)).
  change (_typecache (set_heap (delete n) (set_owners [] (set_owners [n] s1))))
    with [(n, n)].
  unfold set_typecache, set_heap.
  change (heap (set_owners [] (set_owners [n] s1))) with (heap s1).
  change (next_id (set_owners [] (set_owners [n] s1))) with (S n).
  change (_typecodes (set_owners [] (set_owners [n] s1))) with (N.of_nat n + 1).
  change (owners (set_owners [] (set_owners [n] s1))) with (@nil nat).
  rewrite Hdel. unfold demo_idle.
  replace (N.of_nat (S n)) with (N.of_nat n + 1) by lia. f_equal.
  cbn [dict_pop]. unfold weakref_eq. rewrite lookup_empty.
  by rewrite bool_decide_eq_true_2.
Qed.

Lemma run_app (es1 es2 : list (@op demo)) s :
  run (es1 ++ es2) s = run es2 (run es1 s).
Proof. unfold run. apply foldl_app. Qed.

Lemma demo_churn_run n :
  N.of_nat n <= 2 ^ 32 -> run (demo_churn n) init_state = demo_idle n.
Proof.
  induction n as [|n IH]; intros Hle; [done|].
  unfold demo_churn. rewrite seq_S, flat_map_app, run_app.
  fold (demo_churn n). rewrite IH by lia.
  cbn [flat_map app Nat.add]. apply demo_round. lia.
Qed.

(** The program can use the counter up. *)
Lemma reachable_demo_exhausted : reachable demo_exhausted.
Proof.
  unfold demo_exhausted. rewrite <- demo_churn_run; [apply reachable_run|].
  rewrite N2Nat.id. reflexivity.
Qed.

Lemma demo_exhausted_typecodes : _typecodes demo_exhausted = 2 ^ 32.
Proof.
  change (_typecodes demo_exhausted) with (N.of_nat (N.to_nat (2 ^ 32))).
  apply N2Nat.id.
Qed.

Lemma reachable_demo_again : reachable demo_again.
Proof.
  apply (reachable_steps demo_held); [apply steps_run, steps_refl|].
  apply reachable_run.
Qed.

Lemma registry_holds_live_coded_demo : NoDup (@registry_keys demo demo_iter).
Proof.
  apply (registry_holds_live_coded (U:=demo) demo_iter). apply reachable_run.
Defined.

Lemma registered_equal_iff_same_demo :
  @Type_eq demo (with_code 0 (@new_obj demo RangeIterator (Named "range_iter") 0%nat))
                (with_code 1 (@new_obj demo Integer (Named "int32") 1%nat)) = true
  <-> 0%nat = 1%nat.
Proof.
  apply (registered_equal_iff_same (U:=demo) demo_iter 0%nat 1%nat).
  - apply reachable_run.
  - vm_compute. reflexivity.
  - vm_compute. reflexivity.
  - by eexists.
  - by eexists.
Defined.

Lemma codes_below_ceiling_demo : 2 < 2 ^ 32.
Proof.
  apply (codes_below_ceiling (U:=demo) demo_iter 2%nat 2).
  - apply reachable_run.
  - vm_compute. reflexivity.
Defined.

Lemma code_never_reused_demo : 0%nat = 0%nat.
Proof.
  apply (code_never_reused (U:=demo) demo_held demo_busy 0%nat 0%nat 0).
  - apply reachable_run.
  - apply steps_run, steps_refl.
  - vm_compute. reflexivity.
  - vm_compute. reflexivity.
Defined.

Lemma failed_construction_registers_nothing_demo :
  let s' := drawn (@alloc demo Integer (Named "int32") demo_exhausted) in
  _typecache s' = _typecache demo_exhausted /\
  owners s' = owners demo_exhausted /\
  _typecodes s' = _typecodes demo_exhausted + 1.
Proof.
  assert (Hcons : @construct demo Integer (Named "int32") demo_exhausted
                  = Raise AssertionError
                      (drawn (@alloc demo Integer (Named "int32") demo_exhausted))).
  { rewrite construct_unfold, call_fresh.
    - by rewrite demo_exhausted_typecodes.
    - apply wf_demo_idle.
    - done.
    - intros k obk Hk. by apply elem_of_nil in Hk. }
  destruct (failed_construction_registers_nothing (U:=demo) Integer
              (Named "int32") demo_exhausted AssertionError _
              reachable_demo_exhausted Hcons)
    as (H1 & H2 & _ & _ & Hassert & _).
  destruct (Hassert eq_refl) as (_ & H3 & _).
  cbn zeta. by split_and!.
Defined.

Lemma distinct_requests_distinct_instances_demo : 1%nat <> 0%nat.
Proof.
  apply (distinct_requests_distinct_instances (U:=demo) Integer (Named "int32")
           Float (Named "int32") init_state 0%nat demo_held demo_held 1%nat
           (run [@Construct demo Float (Named "int32")] demo_held)).
  - apply reachable_init.
  - vm_compute. reflexivity.
  - apply steps_refl.
  - vm_compute. reflexivity.
  - left. discriminate.
Defined.

Lemma creating_request_attributes_stay_demo :
  exists ob, heap (run [@Construct plain tt ("x", false, [])] plain_held) !! 0%nat
             = Some ob /\
             ob_fields ob = ("x", true, []) /\ Type_repr ob = "x" /\
             is_parametric ob = true /\ _code ob = Some 0.
Proof.
  apply (creating_request_attributes_stay (U:=plain) tt ("x", true, [])
           ("x", false, []) init_state 0%nat plain_held plain_held
           (run [@Construct plain tt ("x", false, [])] plain_held)).
  - apply reachable_init.
  - vm_compute. reflexivity.
  - reflexivity.
  - apply steps_refl.
  - vm_compute. reflexivity.
Defined.

Lemma disposal_pops_own_entry_only_demo :
  _typecache (final_state (@dealloc demo 1%nat demo_again))
  = _typecache demo_again.
Proof.
  assert (Hreach : reachable demo_again) by apply reachable_demo_again.
  destruct (disposal_pops_own_entry_only (U:=demo) demo_again 1%nat Hreach)
    as (_ & Hnone & _).
  apply Hnone. vm_compute. reflexivity.
Defined.

Lemma rank_of_index_demo : (1 <= 2)%nat.
Proof.
  apply (rank_of_index (PyTuple [demo_slice 2; demo_slice 3]) 2%nat LayoutA).
  reflexivity.
Defined.

Lemma one_element_sequence_differs_demo :
  _determine_array_spec (demo_slice 1) = inr (1%nat, LayoutC) /\
  _determine_array_spec (PyTuple [demo_slice 1]) = inr (1%nat, LayoutF) /\
  _determine_array_spec (PyList [demo_slice 1]) = inr (1%nat, LayoutF).
Proof.
  apply (one_element_sequence_differs (demo_slice 1)). reflexivity.
Defined.

Lemma same_spec_same_array_demo :
  exists s3, @getitem demo 0%nat (PySlice (PyInt 2) (PyInt 7) (PyInt 1))
                      demo_indexed = Return 1%nat s3 /\
             _typecodes s3 = _typecodes demo_indexed /\
             _typecache s3 = _typecache demo_indexed.
Proof.
  apply (same_spec_same_array (U:=demo) 0%nat (demo_slice 1)
           (PySlice (PyInt 2) (PyInt 7) (PyInt 1)) demo_held 1%nat
           demo_indexed demo_indexed).
  - apply reachable_run.
  - vm_compute. reflexivity.
  - apply steps_refl.
  - compute_done.
  - reflexivity.
Defined.

Lemma collection_keeps_held_only_demo :
  heap (@collect demo demo_kept) !! 0%nat
  = Some (with_code 0 (@new_obj demo Integer (Named "int32") 0%nat)) /\
  0%nat ∈ registry_keys (@collect demo demo_kept).
Proof.
  assert (Hreach : reachable demo_kept) by apply reachable_run.
  assert (Hheld : held demo_kept 0%nat).
  { apply (held_attr demo_kept 0%nat 1%nat
             (with_code 1 (@new_obj demo ArrayT (ArrayOf 0%nat 1%nat LayoutC) 1%nat))).
    - vm_compute. reflexivity.
    - lia.
    - compute_done.
    - apply held_owner. compute_done. }
  destruct (collection_keeps_held_only (U:=demo) demo_kept Hreach)
    as (Halive & _ & Hreg & _).
  split.
  - apply Halive. split; [vm_compute; reflexivity | exact Hheld].
  - apply Hreg. split; [compute_done | exact Hheld].
Defined.

Lemma exhaustion_is_permanent_demo :
  2 ^ 32 <= _typecodes (step (@Construct demo Integer (Named "int32"))
                             demo_exhausted).
Proof.
  apply (exhaustion_is_permanent (U:=demo) demo_exhausted
           (step (@Construct demo Integer (Named "int32")) demo_exhausted)).
  - apply reachable_demo_exhausted.
  - rewrite demo_exhausted_typecodes. reflexivity.
  - apply steps_step, steps_refl.
Defined.

Lemma build_and_drop_round_trip_demo :
  run [Release 0%nat; Reclaim 0%nat] demo_held
  = set_next_id 1%nat (drawn (@init_state demo)).
Proof.
  apply (build_and_drop_round_trip (U:=demo) Integer (Named "int32")
           init_state demo_held).
  - apply reachable_init.
  - vm_compute. reflexivity.
Defined.

Lemma duplicate_request_round_trip_demo :
  run [Release 0%nat; Reclaim 1%nat] demo_again = set_next_id 2%nat demo_held.
Proof.
  apply (duplicate_request_round_trip (U:=demo) Integer (Named "int32")
           demo_held 0%nat demo_again).
  - apply reachable_run.
  - vm_compute. reflexivity.
  - vm_compute. lia.
Defined.

Lemma instance_never_modified_demo :
  @Type_hash demo (with_code 0 (@new_obj demo Integer (Named "int32") 0%nat))
  = @Type_hash demo (with_code 0 (@new_obj demo Integer (Named "int32") 0%nat)).
Proof.
  apply (instance_never_modified (U:=demo) demo_held demo_busy 0%nat).
  - apply reachable_run.
  - apply steps_run, steps_refl.
  - vm_compute. reflexivity.
  - vm_compute. reflexivity.
Defined.

(** At the ceiling a request for something new stops with an assertion
    failure, while a class with abstract methods is still refused
    first. *)
Example exhausted_request_raises :
  (exists s', @construct demo Integer (Named "int32") demo_exhausted
              = Raise AssertionError s') /\
  @construct demo Function (Named "f") demo_exhausted
  = Raise TypeError demo_exhausted.
Proof.
  split; [|reflexivity].
  rewrite construct_unfold, call_fresh.
  - rewrite demo_exhausted_typecodes. by eexists.
  - apply wf_demo_idle.
  - done.
  - intros k obk Hk. by apply elem_of_nil in Hk.
Qed.
